(** * Sequence-based recommendation engine: a shallow embedding

  The development embeds the counting analyses of
  [shop/recommendations.py] (the API layer) and of
  [3_Python_Shopping_Cart/shopping_cart.py] (the standalone library):
  predecessor / follower analysis, follower recommendation,
  "frequently bought together" and cart similarity.

  Python dictionaries and [Counter]s keep their keys in first-insertion
  order and that order decides every tie, so they are association lists
  here.  The sets of [get_cart_similarity_score] are [gset string].
  Operations that can raise in Python (indexing, true division) return
  in an error monad. *)

From Stdlib Require Import ZArith QArith.
From stdpp Require Import base option list sorting strings pretty gmap.

(** ** The Python fragment the analyses are written in *)

Module Py.

Inductive exn := IndexError | ZeroDivisionError.

Inductive result (A : Type) : Type :=
| Ok (a : A)
| Raise (e : exn).
Arguments Ok {A} a.
Arguments Raise {A} e.

Global Instance result_ret : MRet result := @Ok.
Global Instance result_bind : MBind result := λ A B k m,
  match m with
  | Ok a => k a
  | Raise e => Raise e
  end.

(** [for x in xs: body], threading the mutated locals as a state. *)
Fixpoint for_each {A S} (xs : list A) (body : A → S → result S) (s : S)
    : result S :=
  match xs with
  | [] => Ok s
  | x :: xs' => s' ← body x s; for_each xs' body s'
  end.

(** [range(start, stop)] for [0 <= start]; an empty range when
    [stop <= start], which truncated subtraction gives as well
    ([range(len(items) - 1)] on an empty list is [range(-1)]). *)
Definition range (start stop : nat) : list nat := seq start (stop - start).

(** [l[i]] for [0 <= i]: [IndexError] out of range. *)
Definition getitem {A} (l : list A) (i : nat) : result A :=
  match l !! i with
  | Some x => Ok x
  | None => Raise IndexError
  end.

(** A [dict]: keys in first-insertion order, each key once. *)
Definition dict (K V : Type) : Type := list (K * V).

Section dict.
Context {K : Type} `{EqDecision K} {V : Type}.

Fixpoint dict_get (k : K) (d : dict K V) : option V :=
  match d with
  | [] => None
  | (k', v) :: d' => if decide (k' = k) then Some v else dict_get k d'
  end.

(** [d[k] = f(d[k])] on a [defaultdict] whose factory yields [dflt]:
    an existing key keeps its position, a new key goes last. *)
Fixpoint dd_update (dflt : V) (k : K) (f : V → V) (d : dict K V)
    : dict K V :=
  match d with
  | [] => [(k, f dflt)]
  | (k', v) :: d' =>
      if decide (k' = k) then (k', f v) :: d'
      else (k', v) :: dd_update dflt k f d'
  end.

(** [d[k] = v] on a plain [dict]. *)
Definition dict_set (k : K) (v : V) (d : dict K V) : dict K V :=
  dd_update v k (λ _, v) d.

Definition keys (d : dict K V) : list K := d.*1.
End dict.

(** [sorted(xs, key=key, reverse=True)]: the sort is stable, and
    [reverse=True] keeps the original order of elements with equal
    keys.  Insertion from the right: an element passes only the
    elements with a strictly larger key. *)
Section sorted_reverse.
Context {A : Type} (key : A → nat).

Fixpoint insert_desc (x : A) (l : list A) : list A :=
  match l with
  | [] => [x]
  | y :: l' =>
      if decide (key x < key y) then y :: insert_desc x l' else x :: l
  end.

Definition sorted_reverse (l : list A) : list A := foldr insert_desc [] l.
End sorted_reverse.

(** [sorted(xs)] on strings: code-point order, which on the byte strings
    used here is [String.le]. *)
Definition sorted (l : list string) : list string := merge_sort String.le l.

(** [collections.Counter]. *)
Section counter.
Context {K : Type} `{EqDecision K}.

Definition incr (k : K) (c : dict K nat) : dict K nat :=
  dd_update 0 k S c.

(** [Counter(iterable)] *)
Definition Counter (l : list K) : dict K nat :=
  foldl (λ c x, incr x c) [] l.

(** [c.most_common(n)] is [heapq.nlargest(n, c.items(), key=count)],
    that is the first [n] entries of the stable descending sort, and
    nothing for [n <= 0]. *)
Definition most_common (n : Z) (c : dict K nat) : list (K * nat) :=
  take (Z.to_nat n) (sorted_reverse snd c).
End counter.

(** [a / b] on non-negative integers.  The float Python returns is the
    correctly rounded value of this rational; rounding is monotone and
    leaves 0 and 1 fixed. *)
Definition truediv (a b : nat) : result Q :=
  match b with
  | O => Raise ZeroDivisionError
  | S _ => Ok (Z.of_nat a # Pos.of_nat b)
  end.

End Py.

Export Py.

(** ** [shop/recommendations.py] *)

Module Api.

(** A [CartItem] row; [object_id] is the item's [str(item.object_id)]. *)
Record CartItem := { object_id : string; quantity : nat }.

(** A [Cart]; [items] is [cart.items.all()], which the model's
    [ordering = ['added_at']] and the explicit [order_by('added_at')]
    both give in addition order. *)
Record Cart := { items : list CartItem }.

Definition analyze_product_sequences (carts : list Cart)
    : result (dict string (string * nat)) :=
  product_followers ← for_each carts (λ cart product_followers,
    let items := items cart in
    for_each (range 0 (length items - 1)) (λ i product_followers,
      current ← getitem items i;
      next ← getitem items (i + 1);
      let current_product_id := object_id current in
      let next_product_id := object_id next in
      Ok (dd_update [] current_product_id (λ l, l ++ [next_product_id])
            product_followers))
      product_followers) [];
  for_each product_followers (λ '(product_id, followers) result,
    if bool_decide (followers ≠ []) then
      most_common ← getitem (most_common 1 (Counter followers)) 0;
      Ok (dict_set product_id (most_common.1, most_common.2) result)
    else Ok result) [].

Definition get_product_recommendations
    (product_id : string) (carts : list Cart) (limit : Z)
    : result (list (string * nat)) :=
  product_followers ← for_each carts (λ cart product_followers,
    let items := items cart in
    for_each (range 0 (length items - 1)) (λ i product_followers,
      current ← getitem items i;
      if bool_decide (object_id current = product_id) then
        next ← getitem items (i + 1);
        Ok (product_followers ++ [object_id next])
      else Ok product_followers)
      product_followers) [];
  if bool_decide (product_followers = []) then Ok []
  else Ok (most_common limit (Counter product_followers)).

Definition get_cart_similarity_score (cart1 cart2 : Cart) : result Q :=
  let items1 : gset string := list_to_set (object_id <$> items cart1) in
  let items2 : gset string := list_to_set (object_id <$> items cart2) in
  if bool_decide (items1 = ∅) && bool_decide (items2 = ∅) then Ok 0%Q
  else
    let intersection := size (items1 ∩ items2) in
    let union := size (items1 ∪ items2) in
    if bool_decide (0 < union) then truediv intersection union
    else Ok 0%Q.

Definition find_frequently_bought_together
    (carts : list Cart) (min_frequency : Z)
    : result (list ((string * string) * nat)) :=
  product_combinations ← for_each carts (λ cart product_combinations,
    let product_ids := sorted (object_id <$> items cart) in
    for_each (range 0 (length product_ids)) (λ i product_combinations,
      for_each (range (i + 1) (length product_ids))
        (λ j product_combinations,
          a ← getitem product_ids i;
          b ← getitem product_ids j;
          let pair_ := (a, b) in
          Ok (incr pair_ product_combinations))
        product_combinations)
      product_combinations) [];
  let result :=
    filter (λ entry, (min_frequency ≤ Z.of_nat entry.2)%Z)
      product_combinations in
  Ok (sorted_reverse snd result).

End Api.

(** ** [3_Python_Shopping_Cart/shopping_cart.py] *)

Module Standalone.

(** Of a product the analysis reads [product_id] only. *)
Record Product := { product_id : string }.

Record ShoppingCart := { _items : list Product }.

Definition get_product_sequence (self : ShoppingCart) : list string :=
  product_id <$> _items self.

(** The dataclass [ProductSequenceStats]; [stats_product_id] is its field
    [product_id], renamed apart from [Product]'s. *)
Record ProductSequenceStats := {
  stats_product_id : string;
  most_common_predecessor : option string;
  occurrences : nat
}.

Definition analyze_product_sequences (carts : list ShoppingCart)
    : result (dict string ProductSequenceStats) :=
  predecessor_counts ← for_each carts (λ cart predecessor_counts,
    let sequence := get_product_sequence cart in
    for_each (range 1 (length sequence)) (λ i predecessor_counts,
      predecessor ← getitem sequence (i - 1);
      current ← getitem sequence i;
      Ok (dd_update [] current (incr predecessor) predecessor_counts))
      predecessor_counts) [];
  for_each predecessor_counts (λ '(product_id, predecessors) results,
    if bool_decide (predecessors ≠ []) then
      most_common ← getitem (most_common 1 predecessors) 0;
      let '(most_common_pred_id, count) := most_common in
      Ok (dict_set product_id
            {| stats_product_id := product_id;
               most_common_predecessor := Some most_common_pred_id;
               occurrences := count |} results)
    else
      Ok (dict_set product_id
            {| stats_product_id := product_id;
               most_common_predecessor := None;
               occurrences := 0 |} results)) [].

End Standalone.

(** ** More of the Python fragment: early return, [pop], [enumerate],
    [print] *)

Module PyList.

(** [l.pop(i)] for [0 <= i]: [IndexError] out of range. *)
Definition pop {A} (l : list A) (i : nat) : result (A * list A) :=
  match l !! i with
  | Some x => Ok (x, delete i l)
  | None => Raise IndexError
  end.

(** [enumerate(l, start)] *)
Fixpoint enumerate_from {A} (start : nat) (l : list A) : list (nat * A) :=
  match l with
  | [] => []
  | x :: l' => (start, x) :: enumerate_from (S start) l'
  end.

Definition enumerate {A} (l : list A) : list (nat * A) := enumerate_from 0 l.

(** [for x in xs: body] where the body may [return v]: [Some v] leaves
    the loop, [None] goes on; [None] at the end is falling off the loop. *)
Fixpoint for_each_return {A R} (xs : list A) (body : A → result (option R))
    : result (option R) :=
  match xs with
  | [] => Ok None
  | x :: xs' =>
      r ← body x;
      match r with
      | Some v => Ok (Some v)
      | None => for_each_return xs' body
      end
  end.

(** The line feed of ["\n"]. *)
Definition nl : string := String (Ascii.ascii_of_nat 10) EmptyString.

(** [s * n] on strings. *)
Fixpoint str_repeat (s : string) (n : nat) : string :=
  match n with
  | O => EmptyString
  | S n' => s +:+ str_repeat s n'
  end.

(** [print(s)]: standard output is the list of the printed arguments. *)
Definition print (s : string) (stdout : list string) : list string :=
  stdout ++ [s].

End PyList.

Export PyList.

(** ** [3_Python_Shopping_Cart/shopping_cart.py]: the methods of
    [ShoppingCart] and the report *)

Module StandaloneCart.
Import Standalone.

(** [ShoppingCart()] *)
Definition new_cart : ShoppingCart := {| _items := [] |}.

(** The [isinstance] test of [add_product] is the type of [product]. *)
Definition add_product (self : ShoppingCart) (product : Product)
    : ShoppingCart :=
  {| _items := _items self ++ [product] |}.

(** The return value and the cart afterwards. *)
Definition remove_product (self : ShoppingCart) (product_id : string)
    : result (bool * ShoppingCart) :=
  r ← for_each_return (enumerate (_items self)) (λ '(i, item),
    if bool_decide (Standalone.product_id item = product_id) then
      popped ← pop (_items self) i;
      Ok (Some (true, {| _items := popped.2 |}))
    else Ok None);
  Ok (default (false, self) r).

Definition remove_all_products (self : ShoppingCart) (product_id : string)
    : Z * ShoppingCart :=
  let original_length := length (_items self) in
  let items' :=
    filter (λ item, Standalone.product_id item ≠ product_id) (_items self) in
  ((Z.of_nat original_length - Z.of_nat (length items'))%Z,
   {| _items := items' |}).

Definition clear (self : ShoppingCart) : ShoppingCart := {| _items := [] |}.

Definition get_item_count (self : ShoppingCart) : nat := length (_items self).

Definition get_items (self : ShoppingCart) : list Product := _items self.

Definition is_empty (self : ShoppingCart) : bool :=
  bool_decide (length (_items self) = 0).

(** [print_sequence_analysis]: what it prints, one entry per [print]. *)
Definition print_sequence_analysis
    (stats : dict string ProductSequenceStats)
    (product_names : option (dict string string)) : list string :=
  if bool_decide (stats = []) then
    print "No sequence data available." []
  else
    let name_of (id : string) : string :=
      match product_names with
      | Some names =>
          if bool_decide (names ≠ []) then default id (dict_get id names)
          else id
      | None => id
      end in
    let stdout := print (nl +:+ str_repeat "=" 70) [] in
    let stdout :=
      print "PRODUCT SEQUENCE ANALYSIS - RECOMMENDATION INSIGHTS" stdout in
    let stdout := print (str_repeat "=" 70) stdout in
    let stdout :=
      print (nl +:+ "This shows which product is most commonly added BEFORE each product.")
        stdout in
    let stdout :=
      print ("Use this data to recommend products based on cart sequence patterns." +:+ nl)
        stdout in
    let sorted_stats := sorted_reverse (λ x, occurrences x.2) stats in
    let stdout :=
      foldl (λ stdout '(product_id, stat),
        let product_name := name_of product_id in
        let stdout :=
          match most_common_predecessor stat with
          | None =>
              let stdout := print ("📦 " +:+ product_name) stdout in
              print "   └─ Often added first (no clear predecessor pattern)"
                stdout
          | Some pred =>
              let pred_name := name_of pred in
              let stdout := print ("📦 " +:+ product_name) stdout in
              let stdout :=
                print ("   └─ Most often added AFTER: " +:+ pred_name)
                  stdout in
              print ("   └─ Occurrences: " +:+ pretty (occurrences stat)
                     +:+ " time(s)") stdout
          end in
        print EmptyString stdout) stdout sorted_stats in
    print (str_repeat "=" 70) stdout.

End StandaloneCart.

(** ** Vocabulary of the statements *)

Section vocabulary.
Context {A : Type}.

(** The adjacent pairs [(l[i], l[i+1])] of a sequence, in order. *)
Fixpoint adjacent (l : list A) : list (A * A) :=
  match l with
  | x :: (y :: _) as t => (x, y) :: adjacent t
  | _ => []
  end.

(** The pairs [(l[i], l[j])] with [i < j], in the order of the two
    nested loops. *)
Fixpoint all_pairs (l : list A) : list (A * A) :=
  match l with
  | [] => []
  | x :: t => (pair x <$> t) ++ all_pairs t
  end.

(** Number of occurrences of [k] in [l]. *)
Definition occ `{EqDecision A} (k : A) (l : list A) : nat :=
  length (filter (λ x, x = k) l).

(** [k1] occurs in [l] before the first occurrence of [k2]. *)
Definition seen_before (l : list A) (k1 k2 : A) : Prop :=
  ∃ l1 l2, l = l1 ++ k2 :: l2 ∧ k1 ∈ l1 ∧ k2 ∉ l1.

(** The order a descending stable sort by [key] leaves: larger keys
    first, equal keys in the order [before]. *)
Definition desc_then (key : A → nat) (before : relation A) : relation A :=
  λ x y, key y < key x ∨ (key x = key y ∧ before x y).
End vocabulary.

Section grouping.
Context {K B C : Type} `{EqDecision K}.

(** The second components of the pairs whose first component is [k]. *)
Definition values_at (k : K) (pairs : list (K * B)) : list B :=
  (filter (λ p, p.1 = k) pairs).*2.

(** A [defaultdict] filled pair by pair: [d[p.1] = add(p.2, d[p.1])]. *)
Definition accumulate (empty : C) (add : B → C → C) (pairs : list (K * B))
    : dict K C :=
  foldl (λ d p, dd_update empty p.1 (add p.2) d) [] pairs.
End grouping.

Import Api.

(** The product identifiers of a cart, in addition order. *)
Definition ids (c : Cart) : list string := object_id <$> items c.

(** Every adjacent pair of every cart, in scan order. *)
Definition adjacent_stream (carts : list Cart) : list (string * string) :=
  carts ≫= λ c, adjacent (ids c).

(** The followers of [p]: what came right after [p], in scan order. *)
Definition followers_of (p : string) (carts : list Cart) : list string :=
  values_at p (adjacent_stream carts).

(** Every pair generated by [find_frequently_bought_together], in scan
    order. *)
Definition pair_stream (carts : list Cart) : list (string * string) :=
  carts ≫= λ c, all_pairs (sorted (ids c)).


(** Lexicographic order on canonical pairs. *)
Definition pair_le (p q : string * string) : Prop :=
  (p.1 ≠ q.1 ∧ String.le p.1 q.1) ∨ (p.1 = q.1 ∧ String.le p.2 q.2).

(** Every adjacent pair of every standalone cart, as (current,
    predecessor), in scan order. *)
Definition predecessor_stream (carts : list Standalone.ShoppingCart)
    : list (string * string) :=
  carts ≫= λ c, prod_swap <$> adjacent (Standalone.get_product_sequence c).

(** The predecessors of [p]: what came right before [p], in scan order. *)
Definition predecessors_of (p : string) (carts : list Standalone.ShoppingCart)
    : list string :=
  values_at p (predecessor_stream carts).

(** The entry [most_common(1)[0]] reads, when there is one. *)
Definition top_entry (l : list string) : option (string * nat) :=
  head (most_common 1 (Counter l)).

(** The statistics record [analyze_product_sequences] stores for
    [product_id], from the winning entry of its counter. *)
Definition stats_of (product_id : string) (top : option (string * nat))
    : Standalone.ProductSequenceStats :=
  match top with
  | Some (pred, count) =>
      {| Standalone.stats_product_id := product_id;
         Standalone.most_common_predecessor := Some pred;
         Standalone.occurrences := count |}
  | None =>
      {| Standalone.stats_product_id := product_id;
         Standalone.most_common_predecessor := None;
         Standalone.occurrences := 0 |}
  end.

(** The set of distinct products of a cart. *)
Definition distinct (c : Cart) : gset string := list_to_set (ids c).

(** The Jaccard coefficient as the specification words it:
    [|A ∩ B| / |A ∪ B|], and 0 when both sets are empty. *)
Definition jaccard (s1 s2 : gset string) : Q :=
  if decide (s1 ∪ s2 = ∅) then 0%Q
  else (Z.of_nat (size (s1 ∩ s2)) # Pos.of_nat (size (s1 ∪ s2)))%Q.

Definition cart_of (l : list string) : Cart :=
  {| items := (λ s, {| object_id := s; quantity := 1 |}) <$> l |}.

Definition shopping_cart_of (l : list string) : Standalone.ShoppingCart :=
  {| Standalone._items := (λ s, {| Standalone.product_id := s |}) <$> l |}.

(** Calling [remove_product] until it returns [False], as in
    [while cart.remove_product(pid): n += 1]; [fuel] bounds the number of
    rounds.  Returns the number of removals and the cart afterwards. *)
Fixpoint remove_repeatedly (fuel : nat) (self : Standalone.ShoppingCart)
    (product_id : string) : result (nat * Standalone.ShoppingCart) :=
  match fuel with
  | O => Ok (0, self)
  | S fuel' =>
      r ← StandaloneCart.remove_product self product_id;
      if (r.1 : bool) then
        r' ← remove_repeatedly fuel' r.2 product_id;
        Ok (S r'.1, r'.2)
      else Ok (0, r.2)
  end.

(** [m] choose 2. *)
Definition choose2 (m : nat) : nat := m * (m - 1) / 2.

(** The line of the report for a product without predecessor. *)
Definition often_added_first_line : string :=
  "   └─ Often added first (no clear predecessor pattern)".

(** The lines [print_sequence_analysis] prints for one product. *)
Definition report_block (name_of : string → string)
    (entry : string * Standalone.ProductSequenceStats) : list string :=
  match Standalone.most_common_predecessor entry.2 with
  | None => ["📦 " +:+ name_of entry.1; often_added_first_line; EmptyString]
  | Some pred =>
      ["📦 " +:+ name_of entry.1;
       "   └─ Most often added AFTER: " +:+ name_of pred;
       "   └─ Occurrences: " +:+ pretty (Standalone.occurrences entry.2)
         +:+ " time(s)";
       EmptyString]
  end.

(** The five lines printed before the products. *)
Definition report_header : list string :=
  [nl +:+ str_repeat "=" 70;
   "PRODUCT SEQUENCE ANALYSIS - RECOMMENDATION INSIGHTS";
   str_repeat "=" 70;
   nl +:+ "This shows which product is most commonly added BEFORE each product.";
   "Use this data to recommend products based on cart sequence patterns." +:+ nl].

(** ** The operations that can raise do raise *)

Example getitem_out_of_range : getitem ["A"; "B"] 2 = Raise IndexError.
Proof. reflexivity. Qed.

Example truediv_by_zero : truediv 1 0 = Raise ZeroDivisionError.
Proof. reflexivity. Qed.

Example for_each_stops_at_error :
  for_each [0; 5; 1] (λ i acc, x ← getitem ["A"; "B"] i; Ok (x :: acc)) []
  = Raise IndexError.
Proof. reflexivity. Qed.

(** ** Loops over indices are folds over the pairs they visit *)

Section loops.
Context {A St : Type}.

Lemma for_each_pure (step : A → St → St) body (xs : list A) s :
  (∀ x s, x ∈ xs → body x s = Ok (step x s)) →
  for_each xs body s = Ok (foldl (λ s x, step x s) s xs).
Proof.
  revert s. induction xs as [|x xs IH]; intros s Hbody; [done|].
  simpl. rewrite Hbody by left. simpl. apply IH.
  intros y s' Hy. apply Hbody. by right.
Qed.

Lemma for_each_bind {B} (f : St → B → St) (g : A → list B) body xs s :
  (∀ x s, x ∈ xs → body x s = Ok (foldl f s (g x))) →
  for_each xs body s = Ok (foldl f s (xs ≫= g)).
Proof.
  revert s. induction xs as [|x xs IH]; intros s Hbody; [done|].
  simpl. rewrite Hbody by left. simpl. rewrite foldl_app. apply IH.
  intros y s' Hy. apply Hbody. by right.
Qed.
End loops.

Section index_loops.
Context {A St : Type}.

Lemma getitem_Some (l : list A) i x : l !! i = Some x → getitem l i = Ok x.
Proof. unfold getitem. by intros ->. Qed.

(** A loop over the tail [l[k:]] by index. *)
Lemma for_each_drop (step : A → St → St) body (L : list A) k s :
  (∀ j b s, L !! j = Some b → k ≤ j → body j s = Ok (step b s)) →
  for_each (range k (length L)) body s
  = Ok (foldl (λ s b, step b s) s (drop k L)).
Proof.
  unfold range. intros Hbody.
  remember (length L - k) as n eqn:Hn. revert k s Hn Hbody.
  induction n as [|n IH]; intros k s Hn Hbody.
  - rewrite drop_ge by lia. done.
  - destruct (lookup_lt_is_Some_2 L k) as [b Hb]; [lia|].
    rewrite (drop_S _ _ _ Hb). simpl.
    rewrite (Hbody _ _ _ Hb) by lia. simpl.
    apply IH; [lia|]. intros j b' s' Hj Hle. apply Hbody; [done|lia].
Qed.

(** The two nested loops [for i in range(len(l)): for j in
    range(i + 1, len(l))] visit [all_pairs l]. *)
Lemma for_each_all_pairs_from (step : A → A → St → St) body (L : list A) k s :
  (∀ i j a b s, L !! i = Some a → L !! j = Some b → i < j →
     body i j s = Ok (step a b s)) →
  for_each (range k (length L))
    (λ i s, for_each (range (i + 1) (length L)) (λ j s, body i j s) s) s
  = Ok (foldl (λ s p, step p.1 p.2 s) s (all_pairs (drop k L))).
Proof.
  unfold range at 1. intros Hbody.
  remember (length L - k) as n eqn:Hn. revert k s Hn.
  induction n as [|n IH]; intros k s Hn.
  - rewrite drop_ge by lia. done.
  - destruct (lookup_lt_is_Some_2 L k) as [a Ha]; [lia|].
    rewrite (drop_S _ _ _ Ha). simpl.
    rewrite (for_each_drop (step a)); last first.
    { intros j b s' Hj Hle. apply Hbody; [done..|lia]. }
    simpl. rewrite foldl_app, foldl_fmap.
    replace (k + 1) with (S k) by lia. apply IH. lia.
Qed.

Lemma for_each_all_pairs (step : A → A → St → St) body (L : list A) s :
  (∀ i j a b s, L !! i = Some a → L !! j = Some b → i < j →
     body i j s = Ok (step a b s)) →
  for_each (range 0 (length L))
    (λ i s, for_each (range (i + 1) (length L)) (λ j s, body i j s) s) s
  = Ok (foldl (λ s p, step p.1 p.2 s) s (all_pairs L)).
Proof. intros Hbody. by rewrite (for_each_all_pairs_from step). Qed.

(** A loop over the adjacent positions of [l], whatever index the loop
    variable starts from: [shift] is 0 for [range(len(l) - 1)] with
    [l[i], l[i + 1]] and 1 for [range(1, len(l))] with [l[i - 1], l[i]]. *)
Lemma for_each_adjacent_from
    (step : A → A → St → St) body shift (pre L : list A) s :
  (∀ j a b s, (pre ++ L) !! j = Some a → (pre ++ L) !! (j + 1) = Some b →
     body (shift + j) s = Ok (step a b s)) →
  for_each (seq (shift + length pre) (length L - 1)) body s
  = Ok (foldl (λ s p, step p.1 p.2 s) s (adjacent L)).
Proof.
  revert pre s. induction L as [|x [|y t] IH]; intros pre s Hbody; [done..|].
  replace (length (x :: y :: t) - 1) with (S (length (y :: t) - 1))
    by (simpl; lia).
  cbn [seq for_each adjacent foldl].
  rewrite (Hbody (length pre) x y).
  - simpl. specialize (IH (pre ++ [x]) (step x y s)).
    rewrite length_app in IH. simpl in IH.
    replace (shift + (length pre + 1)) with (S (shift + length pre)) in IH
      by lia.
    apply IH. intros j a b s'. rewrite <-app_assoc. apply Hbody.
  - by rewrite list_lookup_middle.
  - rewrite (cons_middle x), app_assoc.
    rewrite list_lookup_middle; [done|]. rewrite length_app. simpl. lia.
Qed.

Lemma for_each_adjacent (step : A → A → St → St) body (L : list A) s :
  (∀ i a b s, L !! i = Some a → L !! (i + 1) = Some b →
     body i s = Ok (step a b s)) →
  for_each (range 0 (length L - 1)) body s
  = Ok (foldl (λ s p, step p.1 p.2 s) s (adjacent L)).
Proof.
  intros Hbody. unfold range. rewrite Nat.sub_0_r.
  by apply (for_each_adjacent_from step body 0 []).
Qed.

Lemma for_each_adjacent_1 (step : A → A → St → St) body (L : list A) s :
  (∀ i a b s, L !! (i - 1) = Some a → L !! i = Some b → 0 < i →
     body i s = Ok (step a b s)) →
  for_each (range 1 (length L)) body s
  = Ok (foldl (λ s p, step p.1 p.2 s) s (adjacent L)).
Proof.
  intros Hbody. unfold range.
  apply (for_each_adjacent_from step body 1 []).
  intros j a b s' Ha Hb. apply Hbody; [|by rewrite <-Hb; f_equal; lia|lia].
  rewrite <-Ha. simpl. f_equal. lia.
Qed.
End index_loops.

(** ** Dictionaries in insertion order *)

Section dict_facts.
Context {K : Type} `{EqDecision K} {V : Type}.
Implicit Types (d : dict K V) (k : K).

Lemma dict_get_dd_update dflt k f d k' :
  dict_get k' (dd_update dflt k f d)
  = if decide (k = k') then Some (f (default dflt (dict_get k d)))
    else dict_get k' d.
Proof.
  induction d as [|[k0 v] d IH]; csimpl.
  - repeat case_decide; by simplify_eq.
  - repeat (case_decide; simplify_eq/=); try done.
    all: rewrite IH; by repeat (case_decide; simplify_eq/=).
Qed.

Lemma dd_update_fresh dflt k f d :
  k ∉ keys d → dd_update dflt k f d = d ++ [(k, f dflt)].
Proof.
  unfold keys. induction d as [|[k0 v] d IH]; csimpl; [done|].
  rewrite not_elem_of_cons. intros [? ?].
  rewrite decide_False by done. by rewrite IH.
Qed.

Lemma keys_dd_update_in dflt k f d :
  k ∈ keys d → keys (dd_update dflt k f d) = keys d.
Proof.
  unfold keys. induction d as [|[k0 v] d IH]; csimpl.
  - by intros ?%elem_of_nil.
  - case_decide; [done|]. rewrite elem_of_cons. intros [?|?]; [done|].
    csimpl. by rewrite IH.
Qed.

Lemma keys_dd_update dflt k f d :
  keys (dd_update dflt k f d)
  = if decide (k ∈ keys d) then keys d else keys d ++ [k].
Proof.
  case_decide.
  - by apply keys_dd_update_in.
  - rewrite dd_update_fresh by done. unfold keys. by rewrite fmap_app.
Qed.

Lemma NoDup_keys_dd_update dflt k f d :
  NoDup (keys d) → NoDup (keys (dd_update dflt k f d)).
Proof.
  intros Hd. rewrite keys_dd_update. case_decide; [done|].
  apply NoDup_app. split_and!; [done| |apply NoDup_singleton].
  intros x Hx ->%list_elem_of_singleton. done.
Qed.

Lemma dict_get_None k d : dict_get k d = None ↔ k ∉ keys d.
Proof.
  unfold keys. induction d as [|[k0 v] d IH]; csimpl.
  - split; [intros _; apply not_elem_of_nil|done].
  - rewrite not_elem_of_cons. case_decide; naive_solver.
Qed.

Lemma dict_get_is_Some k d : is_Some (dict_get k d) ↔ k ∈ keys d.
Proof.
  rewrite <-not_eq_None_Some, dict_get_None.
  destruct (decide (k ∈ keys d)); naive_solver.
Qed.

Lemma dict_get_Some k v d :
  NoDup (keys d) → dict_get k d = Some v ↔ (k, v) ∈ d.
Proof.
  unfold keys. induction d as [|[k0 v0] d IH]; csimpl; intros Hd.
  - split; [done|]. by intros ?%elem_of_nil.
  - apply NoDup_cons in Hd as [Hk0 Hd]. rewrite elem_of_cons.
    case_decide as Hk; simplify_eq.
    + split; [naive_solver|]. intros [?|Hin]; [naive_solver|].
      destruct Hk0. apply list_elem_of_fmap. by exists (k, v).
    + rewrite IH by done. naive_solver.
Qed.

End dict_facts.

Section dict_map.
Context {K : Type} `{EqDecision K} {V W : Type}.
Implicit Types (d : dict K V) (k : K).

(** Storing one value per key of a dictionary yields the dictionary with
    its values mapped. *)
Lemma foldl_dict_set (g : K → V → W) d (acc : dict K W) :
  NoDup (keys acc ++ keys d) →
  foldl (λ r kv, dict_set kv.1 (g kv.1 kv.2) r) acc d
  = acc ++ ((λ kv, (kv.1, g kv.1 kv.2)) <$> d).
Proof.
  revert acc. induction d as [|[k v] d IH]; intros acc Hnd; csimpl.
  - by rewrite app_nil_r.
  - unfold keys in *. csimpl in Hnd.
    assert (k ∉ acc.*1).
    { apply NoDup_app in Hnd as (_ & Hdis & _). intros Hk.
      apply (Hdis _ Hk). left. }
    assert (dict_set k (g k v) acc = acc ++ [(k, g k v)]) as ->.
    { unfold dict_set. by rewrite dd_update_fresh. }
    rewrite IH.
    + by rewrite <-app_assoc.
    + rewrite fmap_app. simpl. by rewrite <-app_assoc.
Qed.

Lemma keys_fmap_entries (g : K → V → W) d :
  keys ((λ kv, (kv.1, g kv.1 kv.2)) <$> d) = keys d.
Proof. unfold keys. rewrite <-list_fmap_compose. by apply list_fmap_ext. Qed.

Lemma dict_get_fmap_entries (g : K → V → W) d k :
  dict_get k ((λ kv, (kv.1, g kv.1 kv.2)) <$> d) = g k <$> dict_get k d.
Proof.
  induction d as [|[k0 v] d IH]; [done|]. csimpl.
  case_decide; by simplify_eq.
Qed.
End dict_map.

(** ** The stable descending sort *)

Section sorted_reverse_facts.
Context {A : Type} (key : A → nat).
Implicit Types (l : list A) (before : relation A).

Lemma insert_desc_Permutation x l : insert_desc key x l ≡ₚ x :: l.
Proof.
  induction l as [|y l IH]; simpl; [done|].
  case_decide; [|done]. rewrite IH. apply Permutation_swap.
Qed.

Lemma sorted_reverse_Permutation l : sorted_reverse key l ≡ₚ l.
Proof.
  induction l as [|x l IH]; simpl; [done|].
  by rewrite insert_desc_Permutation, IH.
Qed.

Lemma elem_of_sorted_reverse x l : x ∈ sorted_reverse key l ↔ x ∈ l.
Proof. by rewrite sorted_reverse_Permutation. Qed.

Lemma desc_then_key before x y : desc_then key before x y → key y ≤ key x.
Proof. unfold desc_then. lia. Qed.

Lemma insert_desc_sorted before x l :
  Forall (before x) l →
  StronglySorted (desc_then key before) l →
  StronglySorted (desc_then key before) (insert_desc key x l).
Proof.
  induction l as [|y l IH]; simpl; intros Hx Hl.
  { repeat constructor. }
  apply Forall_cons in Hx as [Hxy Hx].
  apply StronglySorted_cons in Hl as [Hy Hl].
  case_decide as Hlt.
  - apply StronglySorted_cons. split; [|by apply IH].
    rewrite insert_desc_Permutation. constructor; [by left|done].
  - apply StronglySorted_cons. split; [|by apply StronglySorted_cons].
    assert (desc_then key before x y) as Hxy'.
    { unfold desc_then. destruct (decide (key y < key x)); [by left|].
      right. split; [lia|done]. }
    constructor; [done|].
    rewrite Forall_forall in Hx, Hy |- *. intros z Hz.
    specialize (Hy z Hz). apply desc_then_key in Hy.
    unfold desc_then. destruct (decide (key z < key x)); [by left|].
    right. split; [lia|by apply Hx].
Qed.

(** The sort is descending in [key] and keeps the input order between
    entries of equal key. *)
Lemma sorted_reverse_sorted before l :
  StronglySorted before l →
  StronglySorted (desc_then key before) (sorted_reverse key l).
Proof.
  induction 1 as [|x l Hl IH Hx]; simpl; [constructor|].
  apply insert_desc_sorted; [|done].
  by rewrite sorted_reverse_Permutation.
Qed.

Lemma sorted_reverse_desc l :
  StronglySorted (λ x y, key y ≤ key x) (sorted_reverse key l).
Proof.
  assert (StronglySorted (λ _ _, True) l) as Hl.
  { induction l; constructor; [done|]. by apply Forall_true. }
  apply (sorted_reverse_sorted _ _) in Hl.
  induction Hl as [|x s Hs IH Hx]; constructor; [done|].
  eapply Forall_impl; [done|]. intros y. apply desc_then_key.
Qed.

Lemma sorted_reverse_nil_inv l : sorted_reverse key l = [] → l = [].
Proof.
  intros Hs. apply Permutation_nil_r. rewrite <-Hs.
  by rewrite sorted_reverse_Permutation.
Qed.
End sorted_reverse_facts.

(** ** Counters *)

Section counter_facts.
Context {K : Type} `{EqDecision K}.
Implicit Types (l : list K) (c : dict K nat) (k : K).

Lemma occ_nil k : occ k [] = 0.
Proof. done. Qed.

Lemma occ_cons k x l : occ k (x :: l) = (if decide (x = k) then 1 else 0) + occ k l.
Proof. unfold occ. rewrite filter_cons. by case_decide. Qed.

Lemma occ_app k l1 l2 : occ k (l1 ++ l2) = occ k l1 + occ k l2.
Proof. unfold occ. by rewrite filter_app, length_app. Qed.

Lemma occ_pos k l : 0 < occ k l ↔ k ∈ l.
Proof.
  induction l as [|x l IH]; [rewrite occ_nil; set_solver by lia|].
  rewrite occ_cons, elem_of_cons. case_decide; [naive_solver lia|].
  rewrite <-IH. naive_solver lia.
Qed.

Lemma occ_0 k l : k ∉ l → occ k l = 0.
Proof. rewrite <-occ_pos. lia. Qed.


Lemma occ_bind {B} (g : B → list K) k (xs : list B) :
  occ k (xs ≫= g) = sum_list (occ k ∘ g <$> xs).
Proof.
  induction xs as [|x xs IH]; [done|]. csimpl. by rewrite occ_app, IH.
Qed.

Lemma Counter_snoc l x : Counter (l ++ [x]) = incr x (Counter l).
Proof. unfold Counter. by rewrite foldl_app. Qed.

Lemma dict_get_Counter k l :
  dict_get k (Counter l) = if decide (k ∈ l) then Some (occ k l) else None.
Proof.
  revert k. induction l as [|x l IH] using rev_ind; intros k.
  { rewrite decide_False; [done|apply not_elem_of_nil]. }
  rewrite Counter_snoc. unfold incr. rewrite dict_get_dd_update.
  rewrite occ_app, occ_cons, occ_nil, !IH. clear IH.
  destruct (decide (k ∈ l ++ [x])) as [Hin|Hin];
    rewrite elem_of_app, list_elem_of_singleton in Hin;
    destruct (decide (x = k)) as [->|Hx]; destruct (decide (k ∈ l));
    simpl; try (f_equal; lia); try naive_solver.
  rewrite occ_0 by done. f_equal.
Qed.

Lemma elem_of_keys_Counter k l : k ∈ keys (Counter l) ↔ k ∈ l.
Proof.
  rewrite <-dict_get_is_Some, dict_get_Counter.
  case_decide; [naive_solver|]. split; [by intros [? ?]|done].
Qed.

Lemma NoDup_keys_Counter l : NoDup (keys (Counter l)).
Proof.
  induction l as [|x l IH] using rev_ind; [constructor|].
  rewrite Counter_snoc. by apply NoDup_keys_dd_update.
Qed.

(** The entries of a counter: every element, once, with its number of
    occurrences. *)
Lemma elem_of_Counter k n l : (k, n) ∈ Counter l ↔ k ∈ l ∧ n = occ k l.
Proof.
  rewrite <-dict_get_Some by apply NoDup_keys_Counter.
  rewrite dict_get_Counter. case_decide; naive_solver.
Qed.

Lemma Counter_nil_inv l : Counter l = [] → l = [].
Proof.
  intros Hc. destruct l as [|x l]; [done|].
  assert (x ∈ keys (Counter (x :: l))) as Hx
    by (apply elem_of_keys_Counter; left).
  rewrite Hc in Hx. by apply elem_of_nil in Hx.
Qed.

Lemma seen_before_snoc l x k1 k2 :
  seen_before l k1 k2 → seen_before (l ++ [x]) k1 k2.
Proof.
  intros (l1 & l2 & -> & ? & ?). exists l1, (l2 ++ [x]).
  by rewrite <-app_assoc.
Qed.

(** The entries of a counter stand in the order in which their keys
    were first seen. *)
Lemma Counter_first_seen l :
  StronglySorted (seen_before l) (keys (Counter l)).
Proof.
  induction l as [|x l IH] using rev_ind; [constructor|].
  rewrite Counter_snoc. unfold incr. rewrite keys_dd_update.
  assert (StronglySorted (seen_before (l ++ [x])) (keys (Counter l))) as IH'.
  { clear -IH. induction IH as [|k s Hs IHs Hk]; constructor; [done|].
    eapply Forall_impl; [done|]. intros k2. apply seen_before_snoc. }
  case_decide as Hx; [done|].
  apply StronglySorted_app_2; [|done|repeat constructor].
  intros k1 k2 Hk1 ->%list_elem_of_singleton.
  rewrite elem_of_keys_Counter in Hk1, Hx.
  exists l, []. done.
Qed.

Lemma Counter_entries_first_seen l :
  StronglySorted (λ e1 e2, seen_before l e1.1 e2.1) (Counter l).
Proof.
  pose proof (Counter_first_seen l) as Hs. unfold keys in Hs.
  induction (Counter l) as [|e c IH]; [constructor|].
  csimpl in Hs. apply StronglySorted_cons in Hs as [He Hc].
  constructor; [by apply IH|]. by rewrite Forall_fmap in He.
Qed.

(** [most_common(1)] of a non-empty counter: one entry, of largest
    count. *)
Lemma most_common_1 c :
  c ≠ [] →
  ∃ e, most_common 1 c = [e] ∧ e ∈ c ∧ ∀ e', e' ∈ c → e'.2 ≤ e.2.
Proof.
  intros Hc. unfold most_common.
  pose proof (sorted_reverse_desc snd c) as Hs.
  pose proof (λ x, elem_of_sorted_reverse snd x c) as Hin.
  destruct (sorted_reverse snd c) as [|e s] eqn:Heq.
  { by apply sorted_reverse_nil_inv in Heq. }
  exists e. change (Z.to_nat 1) with 1. simpl. rewrite take_0.
  split; [done|]. split; [apply Hin; left|].
  intros e' He'. apply Hin in He'.
  apply StronglySorted_cons in Hs as [Hs _].
  apply elem_of_cons in He' as [->|He']; [done|].
  rewrite Forall_forall in Hs. by apply Hs.
Qed.
End counter_facts.

(** ** Grouping pairs by key *)

Section values_at_facts.
Context {K B : Type} `{EqDecision K}.
Implicit Types (pairs : list (K * B)).

Lemma values_at_cons k (p : K * B) pairs :
  values_at k (p :: pairs)
  = if decide (p.1 = k) then p.2 :: values_at k pairs else values_at k pairs.
Proof. unfold values_at. rewrite filter_cons. by case_decide. Qed.

Lemma values_at_app k pairs1 pairs2 :
  values_at k (pairs1 ++ pairs2) = values_at k pairs1 ++ values_at k pairs2.
Proof. unfold values_at. by rewrite filter_app, fmap_app. Qed.

Lemma elem_of_values_at k b pairs : b ∈ values_at k pairs ↔ (k, b) ∈ pairs.
Proof.
  unfold values_at. rewrite list_elem_of_fmap. split.
  - intros ([k' b'] & -> & [Hk ?]%list_elem_of_filter). by simplify_eq/=.
  - intros Hin. exists (k, b). split; [done|]. by apply list_elem_of_filter.
Qed.

Lemma values_at_nil_iff k pairs : values_at k pairs = [] ↔ k ∉ pairs.*1.
Proof.
  induction pairs as [|[k' b] pairs IH]; csimpl.
  - split; [intros _; apply not_elem_of_nil|done].
  - rewrite values_at_cons, not_elem_of_cons. simpl.
    case_decide; [naive_solver|]. rewrite IH. naive_solver.
Qed.

End values_at_facts.

Section grouping_facts.
Context {K B C : Type} `{EqDecision K} (empty : C) (add : B → C → C).
Implicit Types (pairs : list (K * B)) (d : dict K C).

Lemma dict_get_foldl_step k pairs d :
  dict_get k (foldl (λ d p, dd_update empty p.1 (add p.2) d) d pairs)
  = match dict_get k d, values_at k pairs with
    | None, [] => None
    | o, l => Some (foldl (λ c b, add b c) (default empty o) l)
    end.
Proof.
  revert d. induction pairs as [|[k' b] pairs IH]; intros d.
  { simpl. by destruct (dict_get k d). }
  cbn [foldl]. rewrite IH, dict_get_dd_update, values_at_cons. simpl.
  case_decide as Hk; simplify_eq.
  - by destruct (dict_get k d), (values_at k pairs).
  - done.
Qed.

Lemma dict_get_accumulate k pairs :
  dict_get k (accumulate empty add pairs)
  = match values_at k pairs with
    | [] => None
    | l => Some (foldl (λ c b, add b c) empty l)
    end.
Proof. unfold accumulate. by rewrite dict_get_foldl_step. Qed.

Lemma NoDup_keys_accumulate pairs : NoDup (keys (accumulate empty add pairs)).
Proof.
  unfold accumulate. induction pairs as [|p pairs IH] using rev_ind.
  - constructor.
  - rewrite foldl_app. by apply NoDup_keys_dd_update.
Qed.

Lemma elem_of_keys_accumulate k pairs :
  k ∈ keys (accumulate empty add pairs) ↔ k ∈ pairs.*1.
Proof.
  rewrite <-dict_get_is_Some, dict_get_accumulate.
  destruct (values_at k pairs) as [|b l] eqn:Hl.
  - apply values_at_nil_iff in Hl. split; [by intros [? ?]|done].
  - split; [|by eauto]. intros _.
    destruct (decide (k ∈ pairs.*1)) as [|Hk]; [done|].
    apply values_at_nil_iff in Hk. congruence.
Qed.

Lemma elem_of_accumulate k c pairs :
  (k, c) ∈ accumulate empty add pairs →
  values_at k pairs ≠ [] ∧
  c = foldl (λ c b, add b c) empty (values_at k pairs).
Proof.
  rewrite <-dict_get_Some by apply NoDup_keys_accumulate.
  rewrite dict_get_accumulate. destruct (values_at k pairs); naive_solver.
Qed.
End grouping_facts.

Lemma foldl_snoc_id {A} (l l0 : list A) :
  foldl (λ c b, c ++ [b]) l0 l = l0 ++ l.
Proof.
  revert l0. induction l as [|x l IH]; intros l0; simpl.
  - by rewrite app_nil_r.
  - by rewrite IH, <-app_assoc.
Qed.

Lemma adjacent_fmap {A B} (f : A → B) (l : list A) :
  adjacent (f <$> l) = prod_map f f <$> adjacent l.
Proof.
  induction l as [|x [|y t] IH]; [done..|].
  change (f <$> x :: y :: t) with (f x :: (f <$> y :: t)).
  change (adjacent (x :: y :: t)) with ((x, y) :: adjacent (y :: t)).
  csimpl. f_equal. apply IH.
Qed.

Lemma for_each_adjacent_fmap {A B St} (f : A → B) (step : B → B → St → St)
    body (L : list A) s :
  (∀ i a b s, L !! i = Some a → L !! (i + 1) = Some b →
     body i s = Ok (step (f a) (f b) s)) →
  for_each (range 0 (length L - 1)) body s
  = Ok (foldl (λ s p, step p.1 p.2 s) s (adjacent (f <$> L))).
Proof.
  intros Hbody. rewrite adjacent_fmap, foldl_fmap.
  by apply (for_each_adjacent (λ a b, step (f a) (f b))).
Qed.

Lemma foldl_ext_in {A B} (f g : A → B → A) (l : list B) a :
  (∀ a b, f a b = g a b) → foldl f a l = foldl g a l.
Proof.
  intros Hfg. revert a. induction l as [|x l IH]; intros a; simpl; [done|].
  by rewrite Hfg, IH.
Qed.

Lemma foldl_snoc_if {K B} `{EqDecision K} (k : K) (pairs : list (K * B)) l0 :
  foldl (λ s p, if bool_decide (p.1 = k) then s ++ [p.2] else s) l0 pairs
  = l0 ++ values_at k pairs.
Proof.
  revert l0. induction pairs as [|[k' b] pairs IH]; intros l0.
  { simpl. by rewrite app_nil_r. }
  cbn [foldl]. rewrite IH, values_at_cons. simpl.
  case_bool_decide; case_decide; try done. by rewrite <-app_assoc.
Qed.

(** ** What the four analyses compute *)

Lemma top_entry_nil : top_entry [] = None.
Proof. done. Qed.

Lemma top_entry_Some (l : list string) :
  l ≠ [] →
  ∃ e, most_common 1 (Counter l) = [e] ∧ top_entry l = Some e ∧
       e.1 ∈ l ∧ e.2 = occ e.1 l ∧ ∀ k, occ k l ≤ e.2.
Proof.
  intros Hl.
  destruct (most_common_1 (Counter l)) as ([k n] & Hmc & Hin & Hmax).
  { by intros ?%Counter_nil_inv. }
  exists (k, n). unfold top_entry. rewrite Hmc.
  apply elem_of_Counter in Hin as [Hk ->]. split_and!; [done..|].
  intros k'. simpl. destruct (decide (k' ∈ l)) as [Hk'|Hk'].
  - apply (Hmax (k', occ k' l)). by apply elem_of_Counter.
  - rewrite (occ_0 k') by done. lia.
Qed.

Section api_facts.
Import Api.
Implicit Types (carts : list Cart).

Lemma followers_loop carts :
  for_each carts (λ cart product_followers,
    let items := items cart in
    for_each (range 0 (length items - 1)) (λ i product_followers,
      current ← getitem items i;
      next ← getitem items (i + 1);
      let current_product_id := object_id current in
      let next_product_id := object_id next in
      Ok (dd_update [] current_product_id (λ l, l ++ [next_product_id])
            product_followers))
      product_followers) []
  = Ok (accumulate [] (λ b l, l ++ [b]) (adjacent_stream carts)).
Proof.
  unfold accumulate, adjacent_stream. apply for_each_bind.
  intros c s _. unfold ids.
  apply (for_each_adjacent_fmap object_id
           (λ a b s, dd_update [] a (λ l, l ++ [b]) s)).
  intros i a b s' Ha Hb. by rewrite (getitem_Some _ _ _ Ha), (getitem_Some _ _ _ Hb).
Qed.

(** [analyze_product_sequences] returns, and maps every product that has
    a follower to its most common follower. *)
Lemma analyze_product_sequences_spec carts :
  ∃ r, analyze_product_sequences carts = Ok r ∧
       NoDup (keys r) ∧
       ∀ p, dict_get p r = top_entry (followers_of p carts).
Proof.
  unfold analyze_product_sequences. rewrite followers_loop. simpl.
  set (pf := accumulate _ _ _).
  set (g := λ (_ : string) (v : list string), default (EmptyString, 0) (top_entry v)).
  rewrite (for_each_pure (λ kv r, dict_set kv.1 (g kv.1 kv.2) r)); last first.
  { intros [k v] r Hin. apply elem_of_accumulate in Hin as [Hne ->].
    rewrite foldl_snoc_id. simpl.
    rewrite bool_decide_eq_true_2 by done.
    destruct (top_entry_Some _ Hne) as ([q n] & -> & Htop & _).
    unfold g. simpl. by rewrite Htop. }
  rewrite foldl_dict_set; last first.
  { simpl. apply NoDup_keys_accumulate. }
  eexists. split; [done|]. simpl. split.
  { rewrite keys_fmap_entries. apply NoDup_keys_accumulate. }
  intros p. rewrite dict_get_fmap_entries. unfold pf, followers_of.
  rewrite dict_get_accumulate.
  destruct (values_at p (adjacent_stream carts)) as [|b l] eqn:Hv; [done|].
  rewrite foldl_snoc_id. simpl. unfold g.
  destruct (top_entry_Some (b :: l)) as (e & _ & -> & _); done.
Qed.

(** [get_product_recommendations] returns, with the [limit] most common
    followers. *)
Lemma get_product_recommendations_spec p carts limit :
  get_product_recommendations p carts limit
  = Ok (most_common limit (Counter (followers_of p carts))).
Proof.
  unfold get_product_recommendations.
  rewrite (for_each_bind
    (λ (s : list string) (pr : string * string),
       if bool_decide (pr.1 = p) then s ++ [pr.2] else s)
    (λ c, adjacent (ids c))); last first.
  { intros c s _. unfold ids.
    pose (step := λ (a b : string) (s : list string),
                    if bool_decide (a = p) then s ++ [b] else s).
    apply (for_each_adjacent_fmap object_id step).
    intros i a b s' Ha Hb. unfold step. rewrite (getitem_Some _ _ _ Ha). simpl.
    case_bool_decide; [|done]. by rewrite (getitem_Some _ _ _ Hb). }
  simpl. rewrite foldl_snoc_if. simpl. fold (adjacent_stream carts).
  fold (followers_of p carts). case_bool_decide as Hf; [|done].
  rewrite Hf. unfold most_common. simpl. by rewrite take_nil.
Qed.

(** [find_frequently_bought_together] returns: the counter of the pair
    stream, filtered, in stable descending order of count. *)
Lemma find_frequently_bought_together_spec carts min_frequency :
  find_frequently_bought_together carts min_frequency
  = Ok (sorted_reverse snd
          (filter (λ entry, (min_frequency ≤ Z.of_nat entry.2)%Z)
             (Counter (pair_stream carts)))).
Proof.
  unfold find_frequently_bought_together.
  rewrite (for_each_bind (λ c x, incr x c)
             (λ c, all_pairs (sorted (ids c)))); [done|].
  intros c s _. unfold ids.
  rewrite (for_each_all_pairs (λ a b s, incr (a, b) s)).
  - f_equal. apply foldl_ext_in. by intros ? [? ?].
  - intros i j a b s' Ha Hb _.
    by rewrite (getitem_Some _ _ _ Ha), (getitem_Some _ _ _ Hb).
Qed.
End api_facts.

Section standalone_facts.
Import Standalone.
Implicit Types (carts : list ShoppingCart).

Lemma predecessor_loop carts :
  for_each carts (λ cart predecessor_counts,
    let sequence := get_product_sequence cart in
    for_each (range 1 (length sequence)) (λ i predecessor_counts,
      predecessor ← getitem sequence (i - 1);
      current ← getitem sequence i;
      Ok (dd_update [] current (incr predecessor) predecessor_counts))
      predecessor_counts) []
  = Ok (accumulate [] incr (predecessor_stream carts)).
Proof.
  unfold accumulate, predecessor_stream. apply for_each_bind.
  intros c s _. simpl. rewrite foldl_fmap.
  apply (for_each_adjacent_1 (λ a b s, dd_update [] b (incr a) s)).
  intros i a b s' Ha Hb _.
  by rewrite (getitem_Some _ _ _ Ha), (getitem_Some _ _ _ Hb).
Qed.

Lemma foldl_incr_Counter (l : list string) :
  foldl (λ c b, incr b c) [] l = Counter l.
Proof. done. Qed.

(** The standalone [analyze_product_sequences] returns, and maps every
    product that has a predecessor to the statistics of its most common
    one. *)
Lemma standalone_analyze_spec carts :
  ∃ r, analyze_product_sequences carts = Ok r ∧
       NoDup (keys r) ∧
       ∀ p, dict_get p r
            = match predecessors_of p carts with
              | [] => None
              | l => Some (stats_of p (top_entry l))
              end.
Proof.
  unfold analyze_product_sequences. rewrite predecessor_loop. simpl.
  set (pc := accumulate _ _ _).
  set (g := λ (k : string) (c : dict string nat),
              stats_of k (head (most_common 1 c))).
  rewrite (for_each_pure (λ kv r, dict_set kv.1 (g kv.1 kv.2) r)); last first.
  { intros [k c] r Hin. simpl. unfold g. simpl. case_bool_decide as Hc.
    - destruct (most_common_1 c Hc) as ([q n] & -> & _). done.
    - by subst c. }
  rewrite foldl_dict_set; last first.
  { simpl. apply NoDup_keys_accumulate. }
  eexists. split; [done|]. simpl. split.
  { rewrite keys_fmap_entries. apply NoDup_keys_accumulate. }
  intros p. rewrite dict_get_fmap_entries. unfold pc, predecessors_of.
  rewrite dict_get_accumulate.
  by destruct (values_at p (predecessor_stream carts)).
Qed.
End standalone_facts.

Section similarity_facts.
Import Api.

Lemma size_pos_Z (n : nat) : 0 < n → Z.pos (Pos.of_nat n) = Z.of_nat n.
Proof. intros Hn. rewrite <-(Nat2Pos.id n) at 2 by lia. by rewrite positive_nat_Z. Qed.

(** [get_cart_similarity_score] returns the Jaccard coefficient of the
    two sets of distinct products. *)
Lemma get_cart_similarity_score_spec cart1 cart2 :
  get_cart_similarity_score cart1 cart2
  = Ok (jaccard (distinct cart1) (distinct cart2)).
Proof.
  unfold get_cart_similarity_score, jaccard. fold (ids cart1) (ids cart2).
  fold (distinct cart1) (distinct cart2).
  set (s1 := distinct cart1). set (s2 := distinct cart2). simpl.
  destruct (decide (s1 ∪ s2 = ∅)) as [He|Hne].
  - apply empty_union_L in He as [-> ->].
    by rewrite bool_decide_eq_true_2 by done.
  - assert (0 < size (s1 ∪ s2)) as Hpos.
    { destruct (decide (size (s1 ∪ s2) = 0)) as [H0|]; [|lia].
      by apply size_empty_iff, leibniz_equiv in H0. }
    assert (bool_decide (s1 = ∅) && bool_decide (s2 = ∅) = false) as ->.
    { apply andb_false_iff.
      destruct (decide (s1 = ∅)) as [->|]; [right|left];
        apply bool_decide_eq_false_2; [|done].
      intros ->. apply Hne. by rewrite union_empty_r_L. }
    rewrite bool_decide_eq_true_2 by done. unfold truediv.
    destruct (size (s1 ∪ s2)); [lia|done].
Qed.

Lemma jaccard_bounds s1 s2 : (0 <= jaccard s1 s2 <= 1)%Q.
Proof.
  unfold jaccard. case_decide as He; [done|].
  assert (0 < size (s1 ∪ s2)) as Hpos.
  { destruct (decide (size (s1 ∪ s2) = 0)) as [H0|]; [|lia].
    by apply size_empty_iff, leibniz_equiv in H0. }
  assert (size (s1 ∩ s2) ≤ size (s1 ∪ s2)) as Hle.
  { apply subseteq_size. set_solver. }
  unfold Qle. simpl. rewrite size_pos_Z by done. lia.
Qed.

Lemma jaccard_comm s1 s2 : jaccard s1 s2 = jaccard s2 s1.
Proof.
  unfold jaccard.
  by rewrite (comm_L (∪) s1 s2), (comm_L (∩) s1 s2).
Qed.

Lemma jaccard_self s : s ≠ ∅ → (jaccard s s == 1)%Q.
Proof.
  intros Hs. unfold jaccard. rewrite (idemp_L (∪) s), (idemp_L (∩) s).
  rewrite decide_False by done.
  assert (0 < size s) as Hpos.
  { destruct (decide (size s = 0)) as [H0|]; [|lia].
    by apply size_empty_iff, leibniz_equiv in H0. }
  unfold Qeq. simpl. rewrite size_pos_Z by done. lia.
Qed.

Lemma distinct_empty_iff c : distinct c = ∅ ↔ items c = [].
Proof.
  unfold distinct, ids. split.
  - intros He. destruct (items c) as [|i l]; [done|].
    exfalso. assert (object_id i ∈ (∅ : gset string)) as Hin; [|set_solver].
    rewrite <-He. set_solver.
  - by intros ->.
Qed.
End similarity_facts.

(** ** Pairs of a sorted cart *)

Section all_pairs_facts.
Context {A : Type}.
Implicit Types (l : list A) (a b : A).

Lemma elem_of_all_pairs_cons a b x l :
  (a, b) ∈ all_pairs (x :: l) ↔ (a = x ∧ b ∈ l) ∨ (a, b) ∈ all_pairs l.
Proof.
  simpl. rewrite elem_of_app, list_elem_of_fmap. split.
  - intros [(y & ? & ?)|?]; [left|by right]. by simplify_eq.
  - intros [[-> ?]|?]; [left|by right]. by exists b.
Qed.

Lemma elem_of_all_pairs a b l : (a, b) ∈ all_pairs l → a ∈ l ∧ b ∈ l.
Proof.
  induction l as [|x l IH]; [by intros ?%elem_of_nil|].
  rewrite elem_of_all_pairs_cons, !elem_of_cons. naive_solver.
Qed.

Lemma all_pairs_sorted (R : relation A) a b l :
  StronglySorted R l → (a, b) ∈ all_pairs l → R a b.
Proof.
  induction 1 as [|x l Hl IH Hx]; [by intros ?%elem_of_nil|].
  rewrite elem_of_all_pairs_cons. intros [[-> Hb]|Hin]; [|by apply IH].
  rewrite Forall_forall in Hx. by apply Hx.
Qed.




End all_pairs_facts.

Section sorted_facts.
Implicit Types (l : list string).

Lemma sorted_Permutation l : sorted l ≡ₚ l.
Proof. apply merge_sort_Permutation. Qed.

Lemma sorted_StronglySorted l : StronglySorted String.le (sorted l).
Proof. apply StronglySorted_merge_sort; apply _. Qed.

(** The sorted list does not depend on the order of the input. *)
Lemma sorted_Permutation_eq l1 l2 : l1 ≡ₚ l2 → sorted l1 = sorted l2.
Proof.
  intros Hp. apply (StronglySorted_unique String.le).
  - apply sorted_StronglySorted.
  - apply sorted_StronglySorted.
  - by rewrite !sorted_Permutation.
Qed.

Lemma sorted_id l : StronglySorted String.le l → sorted l = l.
Proof.
  intros Hl. apply (StronglySorted_unique String.le).
  - apply sorted_StronglySorted.
  - done.
  - apply sorted_Permutation.
Qed.

Lemma elem_of_sorted x l : x ∈ sorted l ↔ x ∈ l.
Proof. by rewrite sorted_Permutation. Qed.

End sorted_facts.

Section pair_stream_facts.
Import Api.
Implicit Types (carts : list Cart).

Lemma elem_of_pair_stream a b carts :
  (a, b) ∈ pair_stream carts →
  String.le a b ∧ ∃ c, c ∈ carts ∧ a ∈ ids c ∧ b ∈ ids c.
Proof.
  unfold pair_stream. intros (c & Hin & Hc)%list_elem_of_bind. split.
  - apply (all_pairs_sorted String.le _ _ (sorted (ids c))); [|done].
    apply sorted_StronglySorted.
  - exists c. apply elem_of_all_pairs in Hin as [Ha Hb].
    by rewrite !elem_of_sorted in Ha, Hb.
Qed.




Lemma pair_stream_Permutation carts carts' :
  Forall2 (λ c c', ids c ≡ₚ ids c') carts carts' →
  pair_stream carts = pair_stream carts'.
Proof.
  unfold pair_stream. induction 1 as [|c c' carts carts' Hc _ IH]; [done|].
  csimpl. by rewrite IH, (sorted_Permutation_eq _ _ Hc).
Qed.

(** The entries of the output: the generated pairs that are frequent
    enough, each with its number of generations. *)
Lemma elem_of_frequently_bought_together carts min_frequency out pr n :
  find_frequently_bought_together carts min_frequency = Ok out →
  (pr, n) ∈ out ↔
    pr ∈ pair_stream carts ∧ n = occ pr (pair_stream carts) ∧
    (min_frequency ≤ Z.of_nat n)%Z.
Proof.
  rewrite find_frequently_bought_together_spec. intros [= <-].
  rewrite elem_of_sorted_reverse, list_elem_of_filter, elem_of_Counter.
  simpl. naive_solver.
Qed.

Lemma StronglySorted_filter {A} (R : relation A) (P : A → Prop)
    `{∀ x, Decision (P x)} (l : list A) :
  StronglySorted R l → StronglySorted R (filter P l).
Proof.
  induction 1 as [|x l Hl IH Hx]; [constructor|].
  rewrite filter_cons. case_decide; [|done].
  constructor; [done|]. rewrite Forall_forall in Hx |- *.
  intros y [_ Hy]%list_elem_of_filter. by apply Hx.
Qed.
End pair_stream_facts.

(** ** Frequently bought together *)

Ltac by_compute :=
  match goal with
  | |- ?P => apply (bool_decide_unpack P); vm_compute; exact I
  end.

Section co_occurrence.
Import Api.
Implicit Types (carts : list Cart).




(** C4: permuting the items inside carts leaves the output of
    [find_frequently_bought_together] unchanged; in particular the carts
    [a, b] and [b, a] yield the single canonical pair (a, b) with
    count 2. *)
Theorem co_occurrence_order_insensitive carts carts' min_frequency a b :
  Forall2 (λ c c', ids c ≡ₚ ids c') carts carts' →
  String.le a b → a ≠ b →
  find_frequently_bought_together carts min_frequency
  = find_frequently_bought_together carts' min_frequency ∧
  find_frequently_bought_together [cart_of [a; b]; cart_of [b; a]] 2
  = Ok [((a, b), 2)].
Proof.
  intros Hperm Hle Hab. split.
  - rewrite !find_frequently_bought_together_spec.
    by rewrite (pair_stream_Permutation _ _ Hperm).
  - rewrite find_frequently_bought_together_spec.
    assert (pair_stream [cart_of [a; b]; cart_of [b; a]] = [(a, b); (a, b)])
      as ->.
    { unfold pair_stream. csimpl. unfold ids. simpl.
      rewrite (sorted_Permutation_eq [b; a] [a; b]) by apply Permutation_swap.
      rewrite sorted_id; [done|]. repeat constructor. done. }
    assert (Counter [(a, b); (a, b)] = [((a, b), 2)]) as ->.
    { unfold Counter, incr. simpl. by rewrite decide_True. }
    unfold dict. rewrite filter_cons, filter_nil.
    by rewrite decide_True by (simpl; lia).
Qed.

(** An instance: a cart and a rotation of it, and P4 itself. *)
Lemma co_occurrence_order_insensitive_witness :
  find_frequently_bought_together [cart_of ["A"; "B"; "C"]] 1
  = find_frequently_bought_together [cart_of ["C"; "A"; "B"]] 1 ∧
  find_frequently_bought_together [cart_of ["A"; "B"]; cart_of ["B"; "A"]] 2
  = Ok [(("A", "B"), 2)].
Proof.
  apply (co_occurrence_order_insensitive
           [cart_of ["A"; "B"; "C"]] [cart_of ["C"; "A"; "B"]] 1 "A" "B").
  - constructor; [|constructor].
    apply (Permutation_app_comm ["A"; "B"] ["C"]).
  - by_compute.
  - by_compute.
Defined.

(** C7, as stated, fails: with two pairs of equal count the pair
    generated first comes first, here (C, D) before (A, B), against the
    canonical order of the pairs. *)
Lemma co_occurrence_ties_not_canonical :
  ¬ (∀ out,
       find_frequently_bought_together
         [cart_of ["C"; "D"]; cart_of ["C"; "D"];
          cart_of ["A"; "B"]; cart_of ["A"; "B"]] 2 = Ok out →
       StronglySorted (desc_then snd (λ x y, pair_le x.1 y.1)) out).
Proof.
  intros Hclaim.
  assert (find_frequently_bought_together
            [cart_of ["C"; "D"]; cart_of ["C"; "D"];
             cart_of ["A"; "B"]; cart_of ["A"; "B"]] 2
          = Ok [(("C", "D"), 2); (("A", "B"), 2)]) as Hrun
    by (vm_compute; reflexivity).
  apply Hclaim in Hrun. apply StronglySorted_cons in Hrun as [Hhd _].
  apply Forall_cons in Hhd as [[Hlt|[_ Hle]] _].
  - simpl in Hlt. lia.
  - destruct Hle as [[_ Hle]|[Heq _]]; [by vm_compute in Hle|done].
Qed.

(** C7, amended: the output is sorted descending by count, and pairs of
    equal count stand in the order in which they were first generated
    while scanning the carts (the sort has the count as its only key and
    is stable); so the order is determined by the input. *)
Theorem co_occurrence_sorted_by_count_then_first_seen carts min_frequency :
  ∃ out,
    find_frequently_bought_together carts min_frequency = Ok out ∧
    StronglySorted
      (desc_then snd (λ x y, seen_before (pair_stream carts) x.1 y.1)) out.
Proof.
  rewrite find_frequently_bought_together_spec. eexists. split; [done|].
  apply sorted_reverse_sorted, StronglySorted_filter.
  apply Counter_entries_first_seen.
Qed.

(** C8: no pair whose count is below [min_frequency] appears in the
    output, and raising [min_frequency] can only remove entries. *)
Theorem min_frequency_filter_antitone carts m1 m2 :
  (m1 ≤ m2)%Z →
  ∃ out1 out2,
    find_frequently_bought_together carts m1 = Ok out1 ∧
    find_frequently_bought_together carts m2 = Ok out2 ∧
    (∀ pr n, (pr, n) ∈ out1 →
       n = occ pr (pair_stream carts) ∧ (m1 ≤ Z.of_nat n)%Z) ∧
    (∀ e, e ∈ out2 → e ∈ out1) ∧
    (∀ pr, pr ∈ out2.*1 → pr ∈ out1.*1).
Proof.
  intros Hm.
  destruct (find_frequently_bought_together carts m1) as [out1|e] eqn:H1;
    [|by rewrite find_frequently_bought_together_spec in H1].
  destruct (find_frequently_bought_together carts m2) as [out2|e] eqn:H2;
    [|by rewrite find_frequently_bought_together_spec in H2].
  exists out1, out2.
  assert (∀ e, e ∈ out2 → e ∈ out1) as Hsub.
  { intros [pr n].
    rewrite (elem_of_frequently_bought_together _ _ _ _ _ H1),
      (elem_of_frequently_bought_together _ _ _ _ _ H2).
    intros (? & ? & ?). split_and!; [done..|lia]. }
  split_and!; [done..| |done|].
  - intros pr n.
    rewrite (elem_of_frequently_bought_together _ _ _ _ _ H1). naive_solver.
  - intros pr (e & -> & He)%list_elem_of_fmap.
    apply list_elem_of_fmap. exists e. split; [done|]. by apply Hsub.
Qed.

(** An instance: thresholds 1 and 2 on the same carts. *)
Lemma min_frequency_filter_antitone_witness :
  ∃ out1 out2,
    find_frequently_bought_together
      [cart_of ["A"; "B"]; cart_of ["B"; "A"; "C"]] 1 = Ok out1 ∧
    find_frequently_bought_together
      [cart_of ["A"; "B"]; cart_of ["B"; "A"; "C"]] 2 = Ok out2 ∧
    (∀ e, e ∈ out2 → e ∈ out1).
Proof.
  destruct (min_frequency_filter_antitone
              [cart_of ["A"; "B"]; cart_of ["B"; "A"; "C"]] 1 2)
    as (out1 & out2 & H1 & H2 & _ & Hsub & _); [lia|].
  exists out1, out2. by split_and!.
Defined.
End co_occurrence.

(** ** Predecessor analysis *)

Lemma adjacent_snd {A} (l : list A) : (adjacent l).*2 = tail l.
Proof.
  induction l as [|x [|y t] IH]; [done..|].
  change (adjacent (x :: y :: t)) with ((x, y) :: adjacent (y :: t)).
  rewrite fmap_cons, IH. done.
Qed.

Lemma elem_of_tail {A} (x : A) (l : list A) :
  x ∈ tail l ↔ ∃ i, l !! S i = Some x.
Proof.
  rewrite list_elem_of_lookup. by setoid_rewrite lookup_tail.
Qed.

Lemma dict_nil_iff {K V} `{EqDecision K} (d : dict K V) :
  d = [] ↔ ∀ k, dict_get k d = None.
Proof.
  split; [by intros ->|]. intros Hd. destruct d as [|[k v] d]; [done|].
  specialize (Hd k). simpl in Hd. by rewrite decide_True in Hd.
Qed.

Lemma occ_values_at {K B} `{EqDecision K, EqDecision B}
    (k : K) (b : B) (pairs : list (K * B)) :
  occ b (values_at k pairs) = occ (k, b) pairs.
Proof.
  induction pairs as [|[k' b'] pairs IH]; [done|].
  rewrite values_at_cons, occ_cons. simpl.
  repeat case_decide; simplify_eq; rewrite ?occ_cons, ?IH;
    repeat case_decide; simplify_eq; done.
Qed.

Section predecessors.
Import Standalone.
Implicit Types (carts : list ShoppingCart).

Lemma elem_of_predecessor_stream p carts :
  p ∈ (predecessor_stream carts).*1 ↔
  ∃ c i, c ∈ carts ∧ get_product_sequence c !! S i = Some p.
Proof.
  unfold predecessor_stream. rewrite list_elem_of_fmap. split.
  - intros ([p' q] & -> & (c & Hin & Hc)%list_elem_of_bind).
    exists c. apply list_elem_of_fmap in Hin as ([q' p''] & [= -> ->] & Hin).
    assert (p'' ∈ (adjacent (get_product_sequence c)).*2) as Hp.
    { apply list_elem_of_fmap. by exists (q', p''). }
    rewrite adjacent_snd, elem_of_tail in Hp. destruct Hp as [i Hi]. eauto.
  - intros (c & i & Hc & Hi).
    assert (p ∈ (adjacent (get_product_sequence c)).*2) as Hp.
    { rewrite adjacent_snd, elem_of_tail. eauto. }
    apply list_elem_of_fmap in Hp as ([q p'] & -> & Hin).
    exists (p', q). split; [done|]. apply list_elem_of_bind.
    exists c. split; [|done]. apply list_elem_of_fmap. by exists (q, p').
Qed.

(** C2, as stated, fails for one of the two functions it cites: the
    [analyze_product_sequences] of [shop/recommendations.py] keys each
    adjacent pair by its first product and records the second, so on the
    carts [A, B], [A, B], [A, C], [C, B] it has no entry for B and it has
    an entry for A. *)
Lemma api_analysis_is_not_predecessor_analysis :
  ¬ (∀ r,
       Api.analyze_product_sequences
         (cart_of <$> [["A"; "B"]; ["A"; "B"]; ["A"; "C"]; ["C"; "B"]])
       = Ok r →
       dict_get "B" r = Some ("A", 2) ∧ dict_get "C" r = Some ("A", 1) ∧
       dict_get "A" r = None).
Proof.
  intros Hclaim.
  assert (Api.analyze_product_sequences
            (cart_of <$> [["A"; "B"]; ["A"; "B"]; ["A"; "C"]; ["C"; "B"]])
          = Ok [("A", ("B", 2)); ("C", ("B", 1))]) as Hrun
    by (vm_compute; reflexivity).
  by apply Hclaim in Hrun as (Hb & _ & _).
Qed.

(** C2, amended: for the carts [a, b], [a, b], [a, c], [c, b] the
    predecessor analysis of [shopping_cart.py] gives [b] the predecessor
    [a] with 2 occurrences, [c] the predecessor [a] with 1 occurrence,
    and [a] no entry; the function of the same name of
    [shop/recommendations.py] is a follower analysis and gives [a] the
    follower [b] with 2 occurrences, [c] the follower [b] with 1
    occurrence, and [b] no entry. *)
Theorem predecessor_example_P1 (a b c : string) :
  a ≠ b → a ≠ c → b ≠ c →
  (∃ r,
     Standalone.analyze_product_sequences
       (shopping_cart_of <$> [[a; b]; [a; b]; [a; c]; [c; b]]) = Ok r ∧
     dict_get b r
     = Some {| stats_product_id := b; most_common_predecessor := Some a;
               occurrences := 2 |} ∧
     dict_get c r
     = Some {| stats_product_id := c; most_common_predecessor := Some a;
               occurrences := 1 |} ∧
     dict_get a r = None) ∧
  (∃ r,
     Api.analyze_product_sequences
       (cart_of <$> [[a; b]; [a; b]; [a; c]; [c; b]]) = Ok r ∧
     dict_get a r = Some (b, 2) ∧
     dict_get c r = Some (b, 1) ∧
     dict_get b r = None).
Proof.
  intros Hab Hac Hbc. split.
  - destruct (standalone_analyze_spec
                (shopping_cart_of <$> [[a; b]; [a; b]; [a; c]; [c; b]]))
      as (r & Hr & _ & Hget).
    exists r. split; [done|]. rewrite !Hget.
    unfold predecessors_of, predecessor_stream, values_at. csimpl.
    unfold get_product_sequence. csimpl.
    rewrite !filter_cons, filter_nil. simpl.
    repeat (case_decide; simplify_eq/=); try done.
    unfold top_entry, most_common, Counter, incr. simpl.
    repeat (case_decide; simplify_eq/=; try lia); done.
  - destruct (analyze_product_sequences_spec
                (cart_of <$> [[a; b]; [a; b]; [a; c]; [c; b]]))
      as (r & Hr & _ & Hget).
    exists r. split; [done|]. rewrite !Hget.
    unfold followers_of, adjacent_stream, values_at. csimpl.
    unfold ids. csimpl.
    rewrite !filter_cons, filter_nil. simpl.
    repeat (case_decide; simplify_eq/=); try done.
    unfold top_entry, most_common, Counter, incr. simpl.
    repeat (case_decide; simplify_eq/=; try lia); done.
Qed.

(** P1 on the identifiers of the test suite, for both functions. *)
Lemma predecessor_example_P1_witness :
  (∃ r,
     Standalone.analyze_product_sequences
       (shopping_cart_of <$> [["A"; "B"]; ["A"; "B"]; ["A"; "C"]; ["C"; "B"]])
     = Ok r ∧
     dict_get "B" r
     = Some {| stats_product_id := "B"; most_common_predecessor := Some "A";
               occurrences := 2 |} ∧
     dict_get "C" r
     = Some {| stats_product_id := "C"; most_common_predecessor := Some "A";
               occurrences := 1 |} ∧
     dict_get "A" r = None) ∧
  (∃ r,
     Api.analyze_product_sequences
       (cart_of <$> [["A"; "B"]; ["A"; "B"]; ["A"; "C"]; ["C"; "B"]]) = Ok r ∧
     dict_get "A" r = Some ("B", 2) ∧
     dict_get "C" r = Some ("B", 1) ∧
     dict_get "B" r = None).
Proof. apply (predecessor_example_P1 "A" "B" "C"); by_compute. Defined.

(** C3: the map of the predecessor analysis has an entry exactly for the
    products that stand at a non-first position of some cart, every
    entry names a predecessor that was observed, and the map is empty
    exactly when every cart is empty or a singleton. *)
Theorem predecessor_entries_exactly_non_first carts :
  ∃ r,
    Standalone.analyze_product_sequences carts = Ok r ∧
    (∀ p, is_Some (dict_get p r) ↔
       ∃ c i, c ∈ carts ∧ get_product_sequence c !! S i = Some p) ∧
    (∀ p s, dict_get p r = Some s →
       stats_product_id s = p ∧
       ∃ q, most_common_predecessor s = Some q ∧ 0 < occurrences s) ∧
    (r = [] ↔ Forall (λ c, length (_items c) ≤ 1) carts).
Proof.
  destruct (standalone_analyze_spec carts) as (r & Hr & _ & Hget).
  exists r. split; [done|].
  assert (∀ p, is_Some (dict_get p r) ↔
            ∃ c i, c ∈ carts ∧ get_product_sequence c !! S i = Some p)
    as Hkeys.
  { intros p. rewrite <-elem_of_predecessor_stream, Hget.
    pose proof (values_at_nil_iff p (predecessor_stream carts)) as Hnil.
    fold (predecessors_of p carts) in Hnil.
    destruct (predecessors_of p carts) as [|q l].
    - split; [by intros [? ?]|]. intros Hin. by destruct (proj1 Hnil).
    - split; [intros _|by eauto].
      destruct (decide (p ∈ (predecessor_stream carts).*1)) as [|Hno];
        [done|]. by apply Hnil in Hno. }
  split; [done|]. split.
  - intros p s. rewrite Hget.
    destruct (predecessors_of p carts) as [|q0 l] eqn:Hp; [done|].
    intros [= <-].
    destruct (top_entry_Some (q0 :: l)) as ([q n] & _ & -> & Hq & Hn & _);
      [done|]. simpl in *. split; [done|]. exists q. split; [done|].
    rewrite Hn. by apply occ_pos.
  - rewrite dict_nil_iff, Forall_forall. split.
    + intros Hnone c Hc.
      destruct (decide (length (_items c) ≤ 1)) as [|Hlen]; [done|].
      destruct (lookup_lt_is_Some_2 (get_product_sequence c) 1) as [p Hp].
      { unfold get_product_sequence. rewrite length_fmap. lia. }
      assert (is_Some (dict_get p r)) as [s Hs] by (apply Hkeys; eauto).
      by rewrite Hnone in Hs.
    + intros Hshort p. apply eq_None_not_Some. rewrite Hkeys.
      intros (c & i & Hc & Hi). apply lookup_lt_Some in Hi.
      specialize (Hshort c Hc). unfold get_product_sequence in Hi.
      rewrite length_fmap in Hi. lia.
Qed.

(** P2: two singleton carts give the empty map. *)
Lemma predecessor_entries_exactly_non_first_witness :
  Standalone.analyze_product_sequences (shopping_cart_of <$> [["A"]; ["B"]])
  = Ok [].
Proof.
  destruct (predecessor_entries_exactly_non_first
              (shopping_cart_of <$> [["A"]; ["B"]]))
    as (r & Hr & _ & _ & Hempty).
  rewrite Hr. f_equal. apply Hempty. by_compute.
Defined.
End predecessors.

(** ** Follower recommendation, similarity, totality, agreement *)

Section followers.
Import Api.
Implicit Types (carts : list Cart).

Lemma followers_of_nil_iff p carts :
  followers_of p carts = [] ↔ p ∉ (adjacent_stream carts).*1.
Proof. apply values_at_nil_iff. Qed.

(** C6: the recommendation query returns the first [limit] entries of
    the list of the distinct followers of the product with their
    frequencies, ordered by frequency descending; it returns the empty
    list, and no error, exactly when the limit is not positive or the
    product never stands immediately before anything.  For the carts
    [A, B], [A, B] it returns [(B, 2)] for A and [] for B. *)
Theorem recommendations_most_frequent_followers p carts limit :
  ∃ full,
    get_product_recommendations p carts limit
    = Ok (take (Z.to_nat limit) full) ∧
    NoDup full.*1 ∧
    (∀ q n, (q, n) ∈ full ↔
       (p, q) ∈ adjacent_stream carts ∧
       n = occ (p, q) (adjacent_stream carts)) ∧
    StronglySorted (λ x y, y.2 ≤ x.2) full ∧
    (get_product_recommendations p carts limit = Ok [] ↔
       (limit ≤ 0)%Z ∨ p ∉ (adjacent_stream carts).*1) ∧
    get_product_recommendations "A" [cart_of ["A"; "B"]; cart_of ["A"; "B"]] 5
    = Ok [("B", 2)] ∧
    get_product_recommendations "B" [cart_of ["A"; "B"]; cart_of ["A"; "B"]] 5
    = Ok [].
Proof.
  exists (sorted_reverse snd (Counter (followers_of p carts))).
  rewrite get_product_recommendations_spec. unfold most_common.
  split_and!; [done| | | | |by vm_compute..].
  - rewrite sorted_reverse_Permutation. apply NoDup_keys_Counter.
  - intros q n. rewrite elem_of_sorted_reverse, elem_of_Counter.
    unfold followers_of. by rewrite elem_of_values_at, occ_values_at.
  - apply sorted_reverse_desc.
  - rewrite <-followers_of_nil_iff. split.
    + intros [= Htake]. apply take_nil_inv in Htake as [?|Hnil]; [left; lia|].
      right. by apply sorted_reverse_nil_inv, Counter_nil_inv in Hnil.
    + intros [Hlim| ->]; [|simpl; by rewrite take_nil].
      by replace (Z.to_nat limit) with 0 by lia.
Qed.

(** The API function of the same name counts followers, not
    predecessors: on the carts of P1 it maps A to (B, 2) and C to (B, 1),
    and has no entry for B. *)
Example api_analysis_counts_followers :
  analyze_product_sequences
    (cart_of <$> [["A"; "B"]; ["A"; "B"]; ["A"; "C"]; ["C"; "B"]])
  = Ok [("A", ("B", 2)); ("C", ("B", 1))].
Proof. by vm_compute. Qed.

(** C10, as stated, fails at a limit that is not positive: A has a
    follower in the cart [A, B], so the analysis has an entry for A,
    while the query with limit 0 returns nothing. *)
Lemma analysis_query_disagree_at_limit_0 :
  ¬ (∀ r, analyze_product_sequences [cart_of ["A"; "B"]] = Ok r →
       (dict_get "A" r = None ↔
        get_product_recommendations "A" [cart_of ["A"; "B"]] 0 = Ok [])).
Proof.
  intros Hclaim.
  assert (analyze_product_sequences [cart_of ["A"; "B"]]
          = Ok [("A", ("B", 1))]) as Hrun by (vm_compute; reflexivity).
  apply Hclaim in Hrun as [_ Hrun]. by specialize (Hrun eq_refl).
Qed.

(** C10, amended: the batch analysis and the query agree for every
    limit of at least 1: a product with a follower is mapped by
    [analyze_product_sequences] to the single entry of the query with
    limit 1, and a product has no entry exactly when the query returns
    nothing.  For a limit of 0 or less the query returns nothing for
    every product. *)
Theorem analysis_agrees_with_query carts p limit :
  (1 ≤ limit)%Z →
  ∃ r,
    analyze_product_sequences carts = Ok r ∧
    (p ∈ (adjacent_stream carts).*1 →
       ∃ e, dict_get p r = Some e ∧
            get_product_recommendations p carts 1 = Ok [e]) ∧
    (dict_get p r = None ↔
       get_product_recommendations p carts limit = Ok []) ∧
    (∀ p' limit', (limit' ≤ 0)%Z →
       get_product_recommendations p' carts limit' = Ok []).
Proof.
  intros Hlimit.
  destruct (analyze_product_sequences_spec carts) as (r & Hr & _ & Hget).
  exists r. split; [done|]. rewrite Hget.
  rewrite !get_product_recommendations_spec.
  split; [|split].
  - intros Hp. destruct (top_entry_Some (followers_of p carts))
      as (e & Hmc & Htop & _).
    { by rewrite followers_of_nil_iff; intros ?. }
    exists e. by rewrite Hmc.
  - destruct (decide (followers_of p carts = [])) as [Hnil|Hne].
    + rewrite Hnil. unfold most_common. simpl. by rewrite take_nil.
    + destruct (top_entry_Some _ Hne) as (e & Hmc & -> & _).
      split; [done|]. intros [= Htake]. exfalso.
      unfold most_common in Hmc, Htake.
      apply take_nil_inv in Htake as [?|Hnil]; [lia|].
      by rewrite Hnil, take_nil in Hmc.
  - intros p' limit' Hlimit'. rewrite get_product_recommendations_spec.
    unfold most_common. by replace (Z.to_nat limit') with 0 by lia.
Qed.

(** An instance: A is followed by B twice and by C once. *)
Lemma analysis_agrees_with_query_witness :
  ∃ r,
    analyze_product_sequences
      [cart_of ["A"; "B"]; cart_of ["A"; "B"]; cart_of ["A"; "C"]] = Ok r ∧
    (∃ e, dict_get "A" r = Some e ∧
          get_product_recommendations "A"
            [cart_of ["A"; "B"]; cart_of ["A"; "B"]; cart_of ["A"; "C"]] 1
          = Ok [e]) ∧
    get_product_recommendations "A"
      [cart_of ["A"; "B"]; cart_of ["A"; "B"]; cart_of ["A"; "C"]] 0
    = Ok [].
Proof.
  destruct (analysis_agrees_with_query
              [cart_of ["A"; "B"]; cart_of ["A"; "B"]; cart_of ["A"; "C"]]
              "A" 3) as (r & Hr & Hsome & _ & Hzero); [lia|].
  exists r. split; [done|]. split.
  - apply Hsome. by_compute.
  - apply Hzero. lia.
Defined.
End followers.

Section similarity.
Import Api.

(** C5: cart similarity is the Jaccard coefficient of the two sets of
    distinct products; it lies in [0, 1], is symmetric, is 0 for two
    empty carts and 1 for a non-empty cart compared with itself. *)
Theorem similarity_is_jaccard (cart1 cart2 c e1 e2 : Cart) :
  items c ≠ [] → items e1 = [] → items e2 = [] →
  ∃ q,
    get_cart_similarity_score cart1 cart2 = Ok q ∧
    q = jaccard (distinct cart1) (distinct cart2) ∧
    (0 <= q <= 1)%Q ∧
    get_cart_similarity_score cart2 cart1 = Ok q ∧
    get_cart_similarity_score e1 e2 = Ok 0%Q ∧
    ∃ q1, get_cart_similarity_score c c = Ok q1 ∧ (q1 == 1)%Q.
Proof.
  intros Hc He1 He2. exists (jaccard (distinct cart1) (distinct cart2)).
  rewrite !get_cart_similarity_score_spec.
  split; [done|]. split; [done|]. split; [|split; [|split]].
  - apply jaccard_bounds.
  - by rewrite jaccard_comm.
  - apply distinct_empty_iff in He1, He2. rewrite He1, He2. done.
  - eexists. split; [done|]. apply jaccard_self.
    by rewrite distinct_empty_iff.
Qed.

(** An instance, with a repeated product in one cart. *)
Lemma similarity_is_jaccard_witness :
  ∃ q,
    get_cart_similarity_score (cart_of ["A"; "B"; "B"]) (cart_of ["B"; "C"])
    = Ok q ∧
    (0 <= q <= 1)%Q ∧
    get_cart_similarity_score (cart_of ["B"; "C"]) (cart_of ["A"; "B"; "B"])
    = Ok q ∧
    get_cart_similarity_score (cart_of []) (cart_of []) = Ok 0%Q ∧
    ∃ q1, get_cart_similarity_score (cart_of ["A"; "A"]) (cart_of ["A"; "A"])
          = Ok q1 ∧ (q1 == 1)%Q.
Proof.
  destruct (similarity_is_jaccard
              (cart_of ["A"; "B"; "B"]) (cart_of ["B"; "C"])
              (cart_of ["A"; "A"]) (cart_of []) (cart_of []))
    as (q & Hq & _ & Hb & Hsym & He & Hself); [done..|].
  exists q. split; [done|]. split; [done|]. split; [done|]. by split.
Defined.
End similarity.

(** C9: the four analyses, and both implementations of the sequence
    analysis, return a result on every input: no index is out of range
    and no division is by zero, whatever the carts hold. *)
Theorem analyses_total
    (carts : list Api.Cart) (scarts : list Standalone.ShoppingCart)
    (p : string) (limit min_frequency : Z) (cart1 cart2 : Api.Cart) :
  (∃ r, Api.analyze_product_sequences carts = Ok r) ∧
  (∃ r, Standalone.analyze_product_sequences scarts = Ok r) ∧
  (∃ r, Api.get_product_recommendations p carts limit = Ok r) ∧
  (∃ r, Api.find_frequently_bought_together carts min_frequency = Ok r) ∧
  (∃ q, Api.get_cart_similarity_score cart1 cart2 = Ok q).
Proof.
  split_and!.
  - destruct (analyze_product_sequences_spec carts) as (r & Hr & _). eauto.
  - destruct (standalone_analyze_spec scarts) as (r & Hr & _). eauto.
  - rewrite get_product_recommendations_spec. eauto.
  - rewrite find_frequently_bought_together_spec. eauto.
  - rewrite get_cart_similarity_score_spec. eauto.
Qed.

(** ** The methods of [ShoppingCart] *)

Section cart_methods.
Import Standalone StandaloneCart.
Implicit Types (self : ShoppingCart) (l : list Product) (pid : string).

Lemma remove_product_loop_absent (full : list Product) pid start l :
  pid ∉ product_id <$> l →
  for_each_return (enumerate_from start l) (λ '(i, item),
    if bool_decide (product_id item = pid) then
      popped ← pop full i;
      Ok (Some (true, {| _items := popped.2 |}))
    else Ok None)
  = Ok None.
Proof.
  revert start. induction l as [|x l IH]; intros start Hin; [done|].
  rewrite fmap_cons, not_elem_of_cons in Hin. destruct Hin as [Hx Hl].
  cbn [enumerate_from for_each_return].
  rewrite bool_decide_eq_false_2 by done. simpl. by apply IH.
Qed.

Lemma remove_product_loop_present (pre l1 l2 : list Product) x pid :
  product_id x = pid → pid ∉ product_id <$> l1 →
  for_each_return (enumerate_from (length pre) (l1 ++ x :: l2))
    (λ '(i, item),
      if bool_decide (product_id item = pid) then
        popped ← pop (pre ++ l1 ++ x :: l2) i;
        Ok (Some (true, {| _items := popped.2 |}))
      else Ok None)
  = Ok (Some (true, {| _items := pre ++ l1 ++ l2 |})).
Proof.
  intros Hx. revert pre. induction l1 as [|y l1 IH]; intros pre Hl1.
  - cbn [app enumerate_from for_each_return].
    rewrite bool_decide_eq_true_2 by done. unfold pop.
    rewrite list_lookup_middle by done. simpl.
    by rewrite delete_middle.
  - rewrite fmap_cons, not_elem_of_cons in Hl1. destruct Hl1 as [Hy Hl1].
    cbn [app enumerate_from for_each_return].
    rewrite bool_decide_eq_false_2 by done. simpl.
    specialize (IH (pre ++ [y]) Hl1).
    rewrite length_app, Nat.add_1_r, <-!app_assoc in IH. apply IH.
Qed.

Lemma first_match_split pid l :
  pid ∈ product_id <$> l →
  ∃ l1 x l2, l = l1 ++ x :: l2 ∧ product_id x = pid ∧
             pid ∉ product_id <$> l1.
Proof.
  induction l as [|y l IH]; [by intros ?%elem_of_nil|].
  rewrite fmap_cons. destruct (decide (product_id y = pid)) as [Hy|Hy].
  - intros _. exists [], y, l. split_and!; [done..|apply not_elem_of_nil].
  - intros [?|Hin]%elem_of_cons; [done|].
    destruct (IH Hin) as (l1 & x & l2 & -> & Hx & Hl1).
    exists (y :: l1), x, l2. split_and!; [done..|].
    rewrite fmap_cons, not_elem_of_cons. by split.
Qed.

(** X1: [remove_product] of a product that is not in the cart returns
    [False] and leaves the cart as it is; it does not raise, on the empty
    cart either. *)
Theorem remove_product_absent self pid :
  pid ∉ get_product_sequence self →
  remove_product self pid = Ok (false, self).
Proof.
  intros Hin. unfold remove_product, enumerate.
  by rewrite remove_product_loop_absent.
Qed.

(** The empty cart, and a cart holding other products. *)
Lemma remove_product_absent_witness :
  remove_product new_cart "B001" = Ok (false, new_cart) ∧
  remove_product (shopping_cart_of ["B001"]) "NONEXISTENT"
  = Ok (false, shopping_cart_of ["B001"]).
Proof.
  split.
  - apply (remove_product_absent new_cart "B001"). by_compute.
  - apply (remove_product_absent (shopping_cart_of ["B001"]) "NONEXISTENT").
    by_compute.
Defined.

(** X2: [remove_product] of a product that is in the cart returns [True]
    and removes its first occurrence only: the items before it, the
    items after it and later copies of the product stay, in order. *)
Theorem remove_product_first_occurrence self pid l1 x l2 :
  _items self = l1 ++ x :: l2 →
  product_id x = pid → pid ∉ product_id <$> l1 →
  remove_product self pid = Ok (true, {| _items := l1 ++ l2 |}).
Proof.
  intros Hitems Hx Hl1. unfold remove_product, enumerate. rewrite Hitems.
  pose proof (remove_product_loop_present [] l1 l2 x pid Hx Hl1) as Hloop.
  cbn [length app] in Hloop. by rewrite Hloop.
Qed.

(** The cart [B, A, C, A]: the first A goes, the second stays. *)
Lemma remove_product_first_occurrence_witness :
  remove_product (shopping_cart_of ["B"; "A"; "C"; "A"]) "A"
  = Ok (true, shopping_cart_of ["B"; "C"; "A"]).
Proof.
  apply (remove_product_first_occurrence
           (shopping_cart_of ["B"; "A"; "C"; "A"]) "A"
           [{| product_id := "B" |}] {| product_id := "A" |}
           [{| product_id := "C" |}; {| product_id := "A" |}]).
  - reflexivity.
  - reflexivity.
  - by_compute.
Defined.

Lemma filter_ids l pid :
  product_id <$> filter (λ item, product_id item ≠ pid) l
  = filter (λ i, i ≠ pid) (product_id <$> l).
Proof.
  induction l as [|y l IH]; [done|].
  rewrite fmap_cons, !filter_cons. simpl.
  repeat case_decide; try done; by rewrite ?fmap_cons, IH.
Qed.

Lemma length_filter_occ (ids : list string) pid :
  length (filter (λ i, i ≠ pid) ids) + occ pid ids = length ids.
Proof.
  induction ids as [|y ids IH]; [done|].
  rewrite filter_cons, occ_cons. repeat case_decide; simplify_eq/=; lia.
Qed.

(** X3: [remove_all_products] returns the number of occurrences of the
    product, leaves none of them, and keeps the other products in their
    order; the count returned and the items left add up to the items
    there were. *)
Theorem remove_all_products_counts self pid :
  (remove_all_products self pid).1
  = Z.of_nat (occ pid (get_product_sequence self)) ∧
  pid ∉ get_product_sequence (remove_all_products self pid).2 ∧
  get_product_sequence (remove_all_products self pid).2
  = filter (λ i, i ≠ pid) (get_product_sequence self) ∧
  get_item_count (remove_all_products self pid).2
  + occ pid (get_product_sequence self) = get_item_count self.
Proof.
  unfold remove_all_products, get_product_sequence, get_item_count. simpl.
  pose proof (length_filter_occ (product_id <$> _items self) pid) as Hlen.
  rewrite <-filter_ids, !length_fmap in Hlen. rewrite filter_ids.
  split_and!; [lia| |done|lia].
  rewrite list_elem_of_filter. naive_solver.
Qed.

Lemma filter_absent l pid :
  pid ∉ product_id <$> l → filter (λ item, product_id item ≠ pid) l = l.
Proof.
  induction l as [|y l IH]; [done|].
  rewrite fmap_cons, not_elem_of_cons. intros [Hy Hl].
  rewrite filter_cons, decide_True by done. by rewrite IH.
Qed.

(** X4: calling [remove_product] until it returns [False] removes exactly
    what one [remove_all_products] removes, and makes as many removals
    as [remove_all_products] reports. *)
Theorem remove_repeatedly_is_remove_all fuel self pid :
  occ pid (get_product_sequence self) ≤ fuel →
  ∃ n, remove_repeatedly fuel self pid
       = Ok (n, (remove_all_products self pid).2) ∧
       Z.of_nat n = (remove_all_products self pid).1.
Proof.
  intros Hfuel. exists (occ pid (get_product_sequence self)).
  split; [|by rewrite (proj1 (remove_all_products_counts self pid))].
  revert self Hfuel. induction fuel as [|fuel IH]; intros self Hfuel.
  - assert (pid ∉ get_product_sequence self) as Hout.
    { rewrite <-occ_pos. lia. }
    simpl. rewrite occ_0 by done. unfold remove_all_products. simpl.
    rewrite filter_absent by done. by destruct self.
  - cbn [remove_repeatedly].
    destruct (decide (pid ∈ get_product_sequence self)) as [Hin|Hout].
    + destruct (first_match_split _ _ Hin) as (l1 & x & l2 & Hl & Hx & Hl1).
      rewrite (remove_product_first_occurrence _ _ _ _ _ Hl Hx Hl1). simpl.
      assert (occ pid (get_product_sequence self)
              = S (occ pid (get_product_sequence {| _items := l1 ++ l2 |})))
        as Hocc.
      { unfold get_product_sequence. rewrite Hl. simpl.
        rewrite !fmap_app, fmap_cons, !occ_app, occ_cons.
        rewrite decide_True by done. lia. }
      rewrite IH by lia. simpl. rewrite Hocc. do 2 f_equal.
      unfold remove_all_products. simpl. rewrite Hl. f_equal.
      rewrite !filter_app, filter_cons, decide_False; [done|].
      intros Hne. by apply Hne.
    + rewrite remove_product_absent by done. simpl.
      rewrite occ_0 by done. unfold remove_all_products. simpl.
      rewrite filter_absent by done. by destruct self.
Qed.

(** Three copies of B001 and one album, as in the test suite. *)
Lemma remove_repeatedly_is_remove_all_witness :
  remove_repeatedly 5 (shopping_cart_of ["B001"; "B001"; "M001"; "B001"]) "B001"
  = Ok (3, shopping_cart_of ["M001"]).
Proof.
  destruct (remove_repeatedly_is_remove_all 5
              (shopping_cart_of ["B001"; "B001"; "M001"; "B001"]) "B001")
    as (n & Hrun & Hn); [by_compute|].
  assert (n = 3) as -> by (apply Nat2Z.inj; rewrite Hn; reflexivity).
  rewrite Hrun. reflexivity.
Defined.

(** X5: adding a product that the cart does not hold and removing it
    again gives the cart back. *)
Theorem add_then_remove_fresh self product :
  product_id product ∉ get_product_sequence self →
  remove_product (add_product self product) (product_id product)
  = Ok (true, self).
Proof.
  intros Hfresh.
  rewrite (remove_product_first_occurrence _ _ (_items self) product []);
    [|done..]. rewrite app_nil_r. by destruct self.
Qed.

Lemma add_then_remove_fresh_witness :
  remove_product
    (add_product (shopping_cart_of ["A"; "B"]) {| product_id := "C" |}) "C"
  = Ok (true, shopping_cart_of ["A"; "B"]).
Proof.
  apply (add_then_remove_fresh (shopping_cart_of ["A"; "B"])
           {| product_id := "C" |}).
  by_compute.
Defined.

Lemma snoc_eq_cons_iff {A} (a : A) (l : list A) :
  l ++ [a] = a :: l ↔ Forall (λ y, y = a) l.
Proof.
  induction l as [|y l IH]; [by split; [constructor|]|].
  rewrite Forall_cons, <-IH. simpl. split.
  - by intros [= -> ?].
  - by intros [-> ->].
Qed.

(** X6: adding a product that the cart already holds and removing it
    removes the earlier copy and leaves the new copy last.  The addition
    order of the cart is the original one exactly when every item after
    the earlier copy is that same product; otherwise the order has
    changed, and the two calls are no undo. *)
Theorem add_then_remove_present self product l1 x l2 :
  _items self = l1 ++ x :: l2 →
  product_id x = product_id product →
  product_id product ∉ product_id <$> l1 →
  remove_product (add_product self product) (product_id product)
  = Ok (true, {| _items := l1 ++ l2 ++ [product] |}) ∧
  (get_product_sequence {| _items := l1 ++ l2 ++ [product] |}
   = get_product_sequence self ↔
   Forall (λ y, product_id y = product_id product) l2).
Proof.
  intros Hl Hx Hl1. split.
  - apply (remove_product_first_occurrence _ _ l1 x (l2 ++ [product]));
      [|done..]. unfold add_product. simpl. by rewrite Hl, <-app_assoc.
  - unfold get_product_sequence. rewrite Hl. simpl.
    rewrite !fmap_app, !fmap_cons, fmap_nil, Hx.
    assert (Forall (λ y, product_id y = product_id product) l2
            ↔ Forall (λ i, i = product_id product) (product_id <$> l2))
      as -> by (by rewrite Forall_fmap).
    rewrite <-snoc_eq_cons_iff. split.
    + by intros ?%(inj (app _)).
    + by intros ->.
Qed.

(** The cart [A, B]: adding A and removing A leaves [B, A], another
    order; the cart [B, A] comes back as it was. *)
Lemma add_then_remove_present_witness :
  remove_product
    (add_product (shopping_cart_of ["A"; "B"]) {| product_id := "A" |}) "A"
  = Ok (true, shopping_cart_of ["B"; "A"]) ∧
  get_product_sequence (shopping_cart_of ["B"; "A"])
  ≠ get_product_sequence (shopping_cart_of ["A"; "B"]) ∧
  remove_product
    (add_product (shopping_cart_of ["B"; "A"]) {| product_id := "A" |}) "A"
  = Ok (true, shopping_cart_of ["B"; "A"]).
Proof.
  destruct (add_then_remove_present (shopping_cart_of ["A"; "B"])
              {| product_id := "A" |} [] {| product_id := "A" |}
              [{| product_id := "B" |}]) as [Hrun Hsame];
    [reflexivity|reflexivity|by_compute|].
  destruct (add_then_remove_present (shopping_cart_of ["B"; "A"])
              {| product_id := "A" |} [{| product_id := "B" |}]
              {| product_id := "A" |} []) as [Hrun' _];
    [reflexivity|reflexivity|by_compute|].
  split; [exact Hrun|]. split; [|exact Hrun'].
  intros Heq. apply Hsame in Heq. by apply Forall_cons in Heq as [[=] _].
Defined.
End cart_methods.

(** ** More on the two sequence analyses *)

(** Among the entries of a counter, [most_common(1)] picks the largest
    count, and among the largest the one whose key was seen first. *)
Lemma top_entry_first_seen (l : list string) e :
  top_entry l = Some e →
  ∀ k, k ∈ l → k ≠ e.1 →
    occ k l < e.2 ∨ (occ k l = e.2 ∧ seen_before l e.1 k).
Proof.
  unfold top_entry, most_common. change (Z.to_nat 1) with 1.
  pose proof (sorted_reverse_sorted snd _ _ (Counter_entries_first_seen l))
    as Hs.
  pose proof (λ x, elem_of_sorted_reverse snd x (Counter l)) as Hin.
  destruct (sorted_reverse snd (Counter l)) as [|e0 tl]; [done|].
  simpl. intros [= ->] k Hk Hne.
  apply StronglySorted_cons in Hs as [Hhd _].
  assert ((k, occ k l) ∈ e :: tl) as Hkin.
  { apply Hin. by apply elem_of_Counter. }
  apply elem_of_cons in Hkin as [<-|Hkin]; [done|].
  rewrite Forall_forall in Hhd. apply Hhd in Hkin.
  destruct Hkin as [?|[? ?]]; [by left|by right].
Qed.

Lemma top_entry_Some_inv (l : list string) e :
  top_entry l = Some e →
  e.1 ∈ l ∧ e.2 = occ e.1 l ∧ ∀ k, occ k l ≤ e.2.
Proof.
  intros Htop. destruct (decide (l = [])) as [->|Hl]; [done|].
  destruct (top_entry_Some l Hl) as (e' & _ & Htop' & ? & ? & ?).
  rewrite Htop in Htop'. by simplify_eq.
Qed.

Lemma adjacent_fst {A} (l : list A) :
  (adjacent l).*1 = take (length l - 1) l.
Proof.
  induction l as [|x [|y t] IH]; [done..|].
  change (adjacent (x :: y :: t)) with ((x, y) :: adjacent (y :: t)).
  rewrite fmap_cons, IH. simpl. by rewrite Nat.sub_0_r.
Qed.

Section standalone_more.
Import Standalone StandaloneCart.
Implicit Types (carts : list ShoppingCart).

(** The map returned, entry by entry in the order of the dictionary. *)
Lemma standalone_analyze_eq carts :
  analyze_product_sequences carts
  = Ok ((λ kv, (kv.1, stats_of kv.1 (head (most_common 1 kv.2))))
          <$> accumulate [] incr (predecessor_stream carts)).
Proof.
  unfold analyze_product_sequences. rewrite predecessor_loop. simpl.
  set (g := λ (k : string) (c : dict string nat),
              stats_of k (head (most_common 1 c))).
  rewrite (for_each_pure (λ kv r, dict_set kv.1 (g kv.1 kv.2) r)); last first.
  { intros [k c] r Hin. simpl. unfold g. simpl. case_bool_decide as Hc.
    - destruct (most_common_1 c Hc) as ([q n] & -> & _). done.
    - by subst c. }
  rewrite foldl_dict_set; [done|]. simpl. apply NoDup_keys_accumulate.
Qed.

Lemma predecessor_stream_app carts1 carts2 :
  predecessor_stream (carts1 ++ carts2)
  = predecessor_stream carts1 ++ predecessor_stream carts2.
Proof. unfold predecessor_stream. by rewrite bind_app. Qed.

Lemma predecessor_stream_cons c carts :
  predecessor_stream (c :: carts)
  = (prod_swap <$> adjacent (get_product_sequence c))
    ++ predecessor_stream carts.
Proof. done. Qed.

(** X7: a cart with at most one item (a new cart, a cleared cart, a cart
    with a single product) does not influence the predecessor analysis:
    the analysis of the collection with it is the analysis without it. *)
Theorem analysis_ignores_short_carts carts1 c carts2 :
  length (_items c) ≤ 1 →
  analyze_product_sequences (carts1 ++ c :: carts2)
  = analyze_product_sequences (carts1 ++ carts2).
Proof.
  intros Hc. rewrite !standalone_analyze_eq.
  rewrite !predecessor_stream_app, predecessor_stream_cons.
  unfold get_product_sequence.
  by destruct (_items c) as [|x [|y l]]; [..|simpl in Hc; lia].
Qed.

Lemma analysis_ignores_short_carts_witness :
  analyze_product_sequences
    [shopping_cart_of ["A"; "B"]; clear (shopping_cart_of ["C"; "D"]);
     shopping_cart_of ["A"; "B"]]
  = analyze_product_sequences
      [shopping_cart_of ["A"; "B"]; shopping_cart_of ["A"; "B"]].
Proof.
  apply (analysis_ignores_short_carts [shopping_cart_of ["A"; "B"]]
           (clear (shopping_cart_of ["C"; "D"]))
           [shopping_cart_of ["A"; "B"]]).
  simpl. lia.
Defined.

(** X8: after [add_product] on a cart that was not empty, the added
    product has an entry in the predecessor analysis of any collection
    holding that cart, with at least one occurrence. *)
Theorem added_product_has_entry carts1 c carts2 product :
  _items c ≠ [] →
  ∃ r s,
    analyze_product_sequences (carts1 ++ add_product c product :: carts2)
    = Ok r ∧
    dict_get (product_id product) r = Some s ∧
    is_Some (most_common_predecessor s) ∧ 0 < occurrences s.
Proof.
  intros Hc.
  destruct (standalone_analyze_spec
              (carts1 ++ add_product c product :: carts2))
    as (r & Hr & _ & Hget).
  exists r. rewrite Hget.
  assert (product_id product
          ∈ (predecessor_stream
               (carts1 ++ add_product c product :: carts2)).*1) as Hin.
  { apply elem_of_predecessor_stream.
    exists (add_product c product), (length (_items c) - 1). split.
    - apply elem_of_app. right. left.
    - unfold get_product_sequence, add_product. simpl.
      rewrite fmap_app. simpl.
      replace (S (length (_items c) - 1)) with (length (product_id <$> _items c)).
      + by rewrite list_lookup_middle.
      + rewrite length_fmap. destruct (_items c); [done|simpl; lia]. }
  assert (predecessors_of (product_id product)
            (carts1 ++ add_product c product :: carts2) ≠ []) as Hne.
  { unfold predecessors_of. rewrite values_at_nil_iff. by intros ?. }
  destruct (predecessors_of _ _) as [|q l] eqn:Hp; [done|].
  destruct (top_entry_Some (q :: l)) as ([q' n] & _ & Htop & Hq & Hn & _);
    [done|]. rewrite Htop. simpl in Hq, Hn.
  exists (stats_of (product_id product) (Some (q', n))).
  split; [done|]. split; [done|]. simpl. split; [by eexists|].
  rewrite Hn. by apply occ_pos.
Qed.

Lemma added_product_has_entry_witness :
  ∃ r s,
    analyze_product_sequences
      [add_product (shopping_cart_of ["A"]) {| product_id := "B" |}] = Ok r ∧
    dict_get "B" r = Some s ∧ 0 < occurrences s.
Proof.
  destruct (added_product_has_entry [] (shopping_cart_of ["A"]) []
              {| product_id := "B" |}) as (r & s & Hr & Hs & _ & Hn);
    [done|].
  by exists r, s.
Defined.

(** X9: in the predecessor analysis, the entry of a product names a
    predecessor with the number of times it stood immediately before the
    product; no other product stood before it more often; and a product
    that stood before it equally often was first seen before it later
    than the one named (ties go to the predecessor observed first). *)
Theorem predecessor_winner carts :
  ∃ r,
    analyze_product_sequences carts = Ok r ∧
    ∀ p s, dict_get p r = Some s →
      ∃ q,
        most_common_predecessor s = Some q ∧
        occurrences s = occ (p, q) (predecessor_stream carts) ∧
        (∀ q', occ (p, q') (predecessor_stream carts) ≤ occurrences s) ∧
        (∀ q', q' ≠ q →
           occ (p, q') (predecessor_stream carts) = occurrences s →
           seen_before (predecessors_of p carts) q q').
Proof.
  destruct (standalone_analyze_spec carts) as (r & Hr & _ & Hget).
  exists r. split; [done|]. intros p s. rewrite Hget.
  unfold predecessors_of.
  remember (values_at p (predecessor_stream carts)) as l eqn:El.
  destruct (decide (l = [])) as [Hl|Hl]; [by rewrite Hl|].
  destruct (top_entry_Some l Hl) as ([q n] & _ & Htop & Hq & Hn & Hmax).
  pose proof (top_entry_first_seen _ _ Htop) as Htie.
  intros Hs.
  assert (s = stats_of p (Some (q, n))) as ->.
  { destruct l; [done|]. rewrite Htop in Hs. by injection Hs. }
  clear Hs. subst l. simpl in *. exists q. split; [done|].
  setoid_rewrite occ_values_at in Hmax. rewrite occ_values_at in Hn.
  split; [done|]. split; [done|].
  intros q' Hne Hocc. rewrite <-occ_values_at in Hocc.
  destruct (Htie q') as [Hlt|[_ Hseen]]; [|done|lia|done].
  apply occ_pos. rewrite Hocc, Hn, <-occ_values_at. by apply occ_pos.
Qed.
End standalone_more.

Section api_more.
Import Api.
Implicit Types (carts : list Cart).

Lemma elem_of_adjacent_stream_fst p carts :
  p ∈ (adjacent_stream carts).*1 ↔
  ∃ c i, c ∈ carts ∧ ids c !! i = Some p ∧ S i < length (ids c).
Proof.
  unfold adjacent_stream. rewrite list_elem_of_fmap. split.
  - intros ([p' q] & -> & (c & Hin & Hc)%list_elem_of_bind).
    assert (p' ∈ (adjacent (ids c)).*1) as Hp.
    { apply list_elem_of_fmap. by exists (p', q). }
    rewrite adjacent_fst, elem_of_take in Hp.
    destruct Hp as (i & Hi & Hlt). exists c, i. split_and!; [done..|lia].
  - intros (c & i & Hc & Hi & Hlt).
    assert (p ∈ (adjacent (ids c)).*1) as Hp.
    { rewrite adjacent_fst, elem_of_take. exists i. split; [done|lia]. }
    apply list_elem_of_fmap in Hp as ([p' q] & -> & Hin).
    exists (p', q). split; [done|]. apply list_elem_of_bind. by exists c.
Qed.

(** X10: the API analysis has an entry exactly for the products that
    stand at a position other than the last of some cart (the products
    that have a follower); products that are always last are absent,
    and the map is empty exactly when every cart has at most one item. *)
Theorem follower_entries_exactly_non_last carts :
  ∃ r,
    analyze_product_sequences carts = Ok r ∧
    (∀ p, is_Some (dict_get p r) ↔
       ∃ c i, c ∈ carts ∧ ids c !! i = Some p ∧ S i < length (ids c)) ∧
    (r = [] ↔ Forall (λ c, length (items c) ≤ 1) carts).
Proof.
  destruct (analyze_product_sequences_spec carts) as (r & Hr & _ & Hget).
  exists r. split; [done|].
  assert (∀ p, is_Some (dict_get p r) ↔
            ∃ c i, c ∈ carts ∧ ids c !! i = Some p ∧ S i < length (ids c))
    as Hkeys.
  { intros p. rewrite <-elem_of_adjacent_stream_fst, Hget.
    destruct (decide (followers_of p carts = [])) as [Hnil|Hne].
    - rewrite Hnil, top_entry_nil.
      apply followers_of_nil_iff in Hnil. split; [by intros [? ?]|done].
    - destruct (top_entry_Some _ Hne) as (e & _ & -> & _).
      split; [intros _|by eauto].
      destruct (decide (p ∈ (adjacent_stream carts).*1)) as [|Hno]; [done|].
      by apply followers_of_nil_iff in Hno. }
  split; [done|]. rewrite dict_nil_iff, Forall_forall. split.
  - intros Hnone c Hc.
    destruct (decide (length (items c) ≤ 1)) as [|Hlen]; [done|].
    destruct (lookup_lt_is_Some_2 (ids c) 0) as [p Hp].
    { unfold ids. rewrite length_fmap. lia. }
    assert (is_Some (dict_get p r)) as [s Hs].
    { apply Hkeys. exists c, 0. split_and!; [done..|].
      unfold ids. rewrite length_fmap. lia. }
    by rewrite Hnone in Hs.
  - intros Hshort p. apply eq_None_not_Some. rewrite Hkeys.
    intros (c & i & Hc & Hi & Hlt). specialize (Hshort c Hc).
    unfold ids in Hlt. rewrite length_fmap in Hlt. lia.
Qed.

(** X11: in the API analysis, the entry [(q, n)] of a product [p] says
    that [q] came immediately after [p] exactly [n >= 1] times, that no
    product came after [p] more often, and that a product that came
    after [p] equally often was first seen after [p] later than [q]. *)
Theorem follower_winner carts :
  ∃ r,
    analyze_product_sequences carts = Ok r ∧
    ∀ p q n, dict_get p r = Some (q, n) →
      n = occ (p, q) (adjacent_stream carts) ∧ 0 < n ∧
      (∀ q', occ (p, q') (adjacent_stream carts) ≤ n) ∧
      (∀ q', q' ≠ q → occ (p, q') (adjacent_stream carts) = n →
         seen_before (followers_of p carts) q q').
Proof.
  destruct (analyze_product_sequences_spec carts) as (r & Hr & _ & Hget).
  exists r. split; [done|]. intros p q n. rewrite Hget. intros Htop.
  pose proof (top_entry_Some_inv _ _ Htop) as (Hq & Hn & Hmax).
  pose proof (top_entry_first_seen _ _ Htop) as Htie.
  unfold followers_of in Hq, Hn, Hmax, Htie. simpl in *.
  setoid_rewrite occ_values_at in Hmax. rewrite occ_values_at in Hn.
  split; [done|]. split.
  { rewrite Hn, <-occ_values_at. by apply occ_pos. }
  split; [done|]. intros q' Hne Hocc. rewrite <-occ_values_at in Hocc.
  destruct (Htie q') as [Hlt|[_ Hseen]]; [|done|lia|done].
  apply occ_pos. rewrite Hocc, Hn, <-occ_values_at. by apply occ_pos.
Qed.

Lemma StronglySorted_take {A} (R : relation A) n (l : list A) :
  StronglySorted R l → StronglySorted R (take n l).
Proof.
  intros Hl. rewrite <-(take_drop n l) in Hl.
  by apply StronglySorted_app_1_l in Hl.
Qed.

Lemma sum_list_dd_update_S {K} `{EqDecision K} (k : K) (c : dict K nat) :
  sum_list (incr k c).*2 = S (sum_list c.*2).
Proof.
  unfold incr. induction c as [|[k' n] c IH]; [done|]. simpl.
  case_decide; csimpl; [done|]. rewrite IH. lia.
Qed.

(** The counts of a counter add up to the number of elements counted. *)
Lemma sum_list_Counter {K} `{EqDecision K} (l : list K) :
  sum_list (Counter l).*2 = length l.
Proof.
  induction l as [|x l IH] using rev_ind; [done|].
  rewrite Counter_snoc, sum_list_dd_update_S, IH, length_app. simpl. lia.
Qed.

Lemma sum_list_Permutation (l1 l2 : list nat) :
  l1 ≡ₚ l2 → sum_list l1 = sum_list l2.
Proof. induction 1; simpl; lia. Qed.

(** A counter has one entry per distinct element. *)
Lemma length_Counter (l : list string) :
  length (Counter l) = size (list_to_set l : gset string).
Proof.
  rewrite <-(length_fmap fst). fold (keys (Counter l)).
  rewrite <-(size_list_to_set (C:=gset string))
    by apply NoDup_keys_Counter.
  f_equal. apply set_eq. intros x.
  by rewrite !elem_of_list_to_set, elem_of_keys_Counter.
Qed.

(** X12: raising the limit only appends recommendations: the answer for
    a smaller limit is a prefix of the answer for a larger one, and the
    answer holds as many entries as the limit allows, up to the number
    of distinct followers. *)
Theorem recommendations_grow_with_limit p carts limit1 limit2 :
  (limit1 ≤ limit2)%Z →
  ∃ r1 r2,
    get_product_recommendations p carts limit1 = Ok r1 ∧
    get_product_recommendations p carts limit2 = Ok r2 ∧
    r1 `prefix_of` r2 ∧
    length r1
    = Z.to_nat limit1
      `min` size (list_to_set (followers_of p carts) : gset string).
Proof.
  intros Hle. rewrite !get_product_recommendations_spec.
  eexists _, _. split; [done|]. split; [done|]. unfold most_common. split.
  - replace (Z.to_nat limit1) with (Z.to_nat limit1 `min` Z.to_nat limit2)
      by lia.
    rewrite <-take_take. apply prefix_take.
  - rewrite length_take, <-length_Counter.
    by rewrite (Permutation_length (sorted_reverse_Permutation _ _)).
Qed.

Lemma recommendations_grow_with_limit_witness :
  ∃ r1 r2,
    get_product_recommendations "A"
      [cart_of ["A"; "B"]; cart_of ["A"; "C"]; cart_of ["A"; "B"]] 1 = Ok r1 ∧
    get_product_recommendations "A"
      [cart_of ["A"; "B"]; cart_of ["A"; "C"]; cart_of ["A"; "B"]] 5 = Ok r2 ∧
    r1 `prefix_of` r2.
Proof.
  destruct (recommendations_grow_with_limit "A"
              [cart_of ["A"; "B"]; cart_of ["A"; "C"]; cart_of ["A"; "B"]]
              1 5) as (r1 & r2 & H1 & H2 & Hpre & _); [lia|].
  by exists r1, r2.
Defined.

(** X13: the frequencies returned never add up to more than the number
    of times the product was immediately followed by something, and add
    up to exactly that number when the limit is at least the number of
    distinct followers. *)
Theorem recommendations_frequencies_sum p carts limit :
  (Z.of_nat (size (list_to_set (followers_of p carts) : gset string))
   ≤ limit)%Z →
  ∃ r,
    get_product_recommendations p carts limit = Ok r ∧
    sum_list r.*2 = length (followers_of p carts) ∧
    (∀ limit' r',
       get_product_recommendations p carts limit' = Ok r' →
       sum_list r'.*2 ≤ length (followers_of p carts)).
Proof.
  intros Hlimit. rewrite get_product_recommendations_spec.
  eexists. split; [done|].
  assert (sum_list (sorted_reverse snd (Counter (followers_of p carts))).*2
          = length (followers_of p carts)) as Hsum.
  { rewrite <-sum_list_Counter. apply sum_list_Permutation.
    by rewrite sorted_reverse_Permutation. }
  split.
  - unfold most_common. rewrite take_ge; [done|].
    rewrite (Permutation_length (sorted_reverse_Permutation _ _)).
    rewrite length_Counter. lia.
  - intros limit' r'. rewrite get_product_recommendations_spec.
    intros [= <-]. rewrite <-Hsum. unfold most_common.
    set (full := sorted_reverse _ _).
    rewrite <-(take_drop (Z.to_nat limit') full) at 2.
    rewrite fmap_app, sum_list_with_app. lia.
Qed.

Lemma recommendations_frequencies_sum_witness :
  ∃ r,
    get_product_recommendations "A"
      [cart_of ["A"; "B"; "A"; "C"]; cart_of ["A"; "B"]; cart_of ["D"; "A"]] 2
    = Ok r ∧
    sum_list r.*2 = 3.
Proof.
  destruct (recommendations_frequencies_sum "A"
              [cart_of ["A"; "B"; "A"; "C"]; cart_of ["A"; "B"];
               cart_of ["D"; "A"]] 2) as (r & Hr & Hsum & _).
  { by_compute. }
  by exists r.
Defined.

(** X14: recommendations of equal frequency are listed in the order in
    which the followers were first seen while scanning the carts. *)
Theorem recommendations_ties_first_seen p carts limit :
  ∃ r,
    get_product_recommendations p carts limit = Ok r ∧
    StronglySorted
      (desc_then snd (λ x y, seen_before (followers_of p carts) x.1 y.1)) r.
Proof.
  rewrite get_product_recommendations_spec. eexists. split; [done|].
  apply StronglySorted_take, sorted_reverse_sorted.
  apply Counter_entries_first_seen.
Qed.
End api_more.

(** ** More on frequently bought together and on similarity *)

Section co_occurrence_more.
Import Api.
Implicit Types (carts : list Cart) (l : list string).

Lemma occ_Permutation {K} `{EqDecision K} (k : K) (l1 l2 : list K) :
  l1 ≡ₚ l2 → occ k l1 = occ k l2.
Proof. unfold occ. by intros ->. Qed.

Lemma occ_pair_fmap (a b x : string) l :
  occ (a, b) (pair x <$> l) = if decide (x = a) then occ b l else 0.
Proof.
  induction l as [|y l IH]; [by case_decide|].
  rewrite fmap_cons, !occ_cons, IH.
  repeat case_decide; simplify_eq; lia.
Qed.

Lemma choose2_S m : choose2 (S m) = m + choose2 m.
Proof.
  unfold choose2. replace (S m * (S m - 1)) with (m * (m - 1) + m * 2).
  - rewrite Nat.div_add by done. lia.
  - destruct m; simpl; lia.
Qed.

(** In a sorted list, the pair of two different products [a <= b] is
    generated once for every choice of a copy of [a] and a copy of [b]. *)
Lemma occ_all_pairs_mult a b l :
  StronglySorted String.le l → String.le a b → a ≠ b →
  occ (a, b) (all_pairs l) = occ a l * occ b l.
Proof.
  intros Hl Hle Hab. induction Hl as [|x t Ht IH Hx]; [done|].
  cbn [all_pairs]. rewrite occ_app, occ_pair_fmap, IH, !occ_cons.
  destruct (decide (x = a)) as [->|Hxa].
  - rewrite (decide_False (P:=a = b)) by done. lia.
  - destruct (decide (x = b)) as [->|Hxb]; [|lia].
    assert (a ∉ t) as Ha.
    { intros Hin. rewrite Forall_forall in Hx. apply Hx in Hin.
      destruct Hab. by apply (anti_symm String.le). }
    rewrite (occ_0 a) by done. lia.
Qed.

(** A self-pair is generated once for every two copies of the product. *)
Lemma occ_all_pairs_self a l :
  occ (a, a) (all_pairs l) = choose2 (occ a l).
Proof.
  induction l as [|x t IH]; [done|].
  cbn [all_pairs]. rewrite occ_app, occ_pair_fmap, IH, occ_cons.
  case_decide; [|done]. by rewrite choose2_S.
Qed.

Lemma occ_pair_stream_mult a b carts :
  String.le a b → a ≠ b →
  occ (a, b) (pair_stream carts)
  = sum_list ((λ c, occ a (ids c) * occ b (ids c)) <$> carts).
Proof.
  intros Hle Hab. unfold pair_stream.
  induction carts as [|c carts IH]; [done|]. csimpl.
  rewrite occ_app, IH, occ_all_pairs_mult;
    [|apply sorted_StronglySorted|done..].
  by rewrite !(occ_Permutation _ _ _ (sorted_Permutation (ids c))).
Qed.

Lemma occ_pair_stream_self a carts :
  occ (a, a) (pair_stream carts)
  = sum_list ((λ c, choose2 (occ a (ids c))) <$> carts).
Proof.
  unfold pair_stream. induction carts as [|c carts IH]; [done|]. csimpl.
  rewrite occ_app, IH, occ_all_pairs_self.
  by rewrite (occ_Permutation _ _ _ (sorted_Permutation (ids c))).
Qed.

(** X15: what [find_frequently_bought_together] counts when carts list a
    product more than once.  A pair of different products is in the
    output exactly with the sum over the carts of the product of their
    multiplicities as its count, provided it is in canonical order and
    that count is at least 1 and at least [min_frequency]; a self-pair
    (a, a) is in the output exactly with the number of pairs of copies
    of [a] in a cart, summed over the carts, as its count, provided
    that count is at least 1 and at least [min_frequency]. *)
Theorem co_occurrence_counts_multiplicities carts min_frequency :
  ∃ out,
    find_frequently_bought_together carts min_frequency = Ok out ∧
    (∀ a b n, a ≠ b →
       ((a, b), n) ∈ out ↔
       String.le a b ∧
       n = sum_list ((λ c, occ a (ids c) * occ b (ids c)) <$> carts) ∧
       0 < n ∧ (min_frequency ≤ Z.of_nat n)%Z) ∧
    (∀ a n,
       ((a, a), n) ∈ out ↔
       n = sum_list ((λ c, choose2 (occ a (ids c))) <$> carts) ∧
       0 < n ∧ (min_frequency ≤ Z.of_nat n)%Z).
Proof.
  destruct (find_frequently_bought_together carts min_frequency)
    as [out|e] eqn:Hout;
    [|by rewrite find_frequently_bought_together_spec in Hout].
  exists out. split; [done|]. split.
  - intros a b n Hab.
    rewrite (elem_of_frequently_bought_together _ _ _ _ _ Hout). split.
    + intros (Hin & -> & Hmin).
      pose proof (elem_of_pair_stream _ _ _ Hin) as [Hle _].
      split_and!; [done| |by apply occ_pos|done].
      by apply occ_pair_stream_mult.
    + intros (Hle & -> & Hpos & Hmin).
      rewrite <-(occ_pair_stream_mult a b carts Hle Hab) in Hpos, Hmin |- *.
      split_and!; [by apply occ_pos|done..].
  - intros a n.
    rewrite (elem_of_frequently_bought_together _ _ _ _ _ Hout). split.
    + intros (Hin & -> & Hmin).
      split_and!; [apply occ_pair_stream_self|by apply occ_pos|done].
    + intros (-> & Hpos & Hmin).
      rewrite <-(occ_pair_stream_self a carts) in Hpos, Hmin |- *.
      split_and!; [by apply occ_pos|done..].
Qed.

(** X16: whatever the carts hold, every pair of the output is in
    canonical order, occurs in the output once, has a count of at least
    1 and of at least [min_frequency], and never occurs in both orders. *)
Theorem co_occurrence_output_canonical carts min_frequency :
  ∃ out,
    find_frequently_bought_together carts min_frequency = Ok out ∧
    NoDup out.*1 ∧
    (∀ a b n, ((a, b), n) ∈ out →
       String.le a b ∧ 0 < n ∧ (min_frequency ≤ Z.of_nat n)%Z) ∧
    (∀ a b, a ≠ b → (a, b) ∈ out.*1 → (b, a) ∉ out.*1).
Proof.
  destruct (find_frequently_bought_together carts min_frequency)
    as [out|e] eqn:Hout;
    [|by rewrite find_frequently_bought_together_spec in Hout].
  exists out. split; [done|].
  assert (∀ a b, (a, b) ∈ out.*1 → String.le a b) as Hcanon.
  { intros a b ([pr n] & [= <-] & Hin)%list_elem_of_fmap.
    apply (elem_of_frequently_bought_together _ _ _ _ _ Hout) in Hin.
    destruct Hin as (Hin & _). by apply elem_of_pair_stream in Hin as [? _]. }
  split_and!.
  - rewrite find_frequently_bought_together_spec in Hout.
    injection Hout as <-. rewrite sorted_reverse_Permutation.
    eapply sublist_NoDup; [apply (NoDup_keys_Counter (pair_stream carts))|].
    unfold keys. apply fmap_sublist, sublist_filter.
  - intros a b n Hin. split; [|split].
    + apply Hcanon. apply list_elem_of_fmap. by exists ((a, b), n).
    + apply (elem_of_frequently_bought_together _ _ _ _ _ Hout) in Hin.
      destruct Hin as (Hin & -> & _). by apply occ_pos.
    + by apply (elem_of_frequently_bought_together _ _ _ _ _ Hout) in Hin
        as (_ & _ & ?).
  - intros a b Hab Hin Hin'. apply Hcanon in Hin, Hin'.
    destruct Hab. by apply (anti_symm String.le).
Qed.
End co_occurrence_more.

Section similarity_more.
Import Api.

Lemma jaccard_one_iff (s1 s2 : gset string) :
  (jaccard s1 s2 == 1)%Q ↔ s1 = s2 ∧ s1 ≠ ∅.
Proof.
  unfold jaccard. case_decide as He.
  - apply empty_union_L in He as [-> ->]. split; [done|by intros [_ ?]].
  - assert (0 < size (s1 ∪ s2)) as Hpos.
    { destruct (decide (size (s1 ∪ s2) = 0)) as [H0|]; [|lia].
      by apply size_empty_iff, leibniz_equiv in H0. }
    unfold Qeq. cbn [Qnum Qden]. rewrite size_pos_Z by done. split.
    + intros Hsz.
      assert (s1 ∩ s2 = s1 ∪ s2) as Heq.
      { apply set_subseteq_size_eq; [set_solver|lia]. }
      assert (s1 = s2) as -> by set_solver.
      split; [done|]. intros ->. apply He. set_solver.
    + intros [-> _].
      assert (s2 ∩ s2 = s2 ∪ s2) as -> by set_solver. lia.
Qed.

Lemma jaccard_zero_iff (s1 s2 : gset string) :
  (jaccard s1 s2 == 0)%Q ↔ s1 ∩ s2 = ∅.
Proof.
  unfold jaccard. case_decide as He.
  - apply empty_union_L in He as [-> ->]. split; [set_solver|done].
  - unfold Qeq. cbn [Qnum Qden].
    rewrite <-(leibniz_equiv_iff (s1 ∩ s2) ∅), <-size_empty_iff. lia.
Qed.

(** X17: the similarity of two carts is 1 exactly when the first cart is
    not empty and both hold the same products, and 0 exactly when they
    have no product in common. *)
Theorem similarity_extremes (cart1 cart2 : Cart) :
  ∃ q,
    get_cart_similarity_score cart1 cart2 = Ok q ∧
    ((q == 1)%Q ↔
       items cart1 ≠ [] ∧ ∀ x, x ∈ ids cart1 ↔ x ∈ ids cart2) ∧
    ((q == 0)%Q ↔ ∀ x, x ∈ ids cart1 → x ∉ ids cart2).
Proof.
  rewrite get_cart_similarity_score_spec. eexists. split; [done|].
  rewrite jaccard_one_iff, jaccard_zero_iff, <-distinct_empty_iff.
  unfold distinct. split.
  - split.
    + intros [Heq ?]. split; [done|]. intros x.
      by rewrite <-!(elem_of_list_to_set (C:=gset string)), Heq.
    + intros [? Heq]. split; [|done]. apply set_eq. intros x.
      by rewrite !elem_of_list_to_set.
  - rewrite <-disjoint_intersection_L, elem_of_disjoint.
    by setoid_rewrite elem_of_list_to_set.
Qed.

(** X18: the similarity of two carts depends on which products they
    hold only, not on the order of the items nor on repeated items. *)
Theorem similarity_depends_on_product_sets (cart1 cart1' cart2 cart2' : Cart) :
  (∀ x, x ∈ ids cart1 ↔ x ∈ ids cart1') →
  (∀ x, x ∈ ids cart2 ↔ x ∈ ids cart2') →
  get_cart_similarity_score cart1 cart2
  = get_cart_similarity_score cart1' cart2'.
Proof.
  intros H1 H2. rewrite !get_cart_similarity_score_spec.
  assert (distinct cart1 = distinct cart1') as ->.
  { apply set_eq. intros x. unfold distinct.
    by rewrite !elem_of_list_to_set. }
  assert (distinct cart2 = distinct cart2') as ->; [|done].
  apply set_eq. intros x. unfold distinct. by rewrite !elem_of_list_to_set.
Qed.

Lemma similarity_depends_on_product_sets_witness :
  get_cart_similarity_score (cart_of ["A"; "B"; "A"]) (cart_of ["B"; "C"])
  = get_cart_similarity_score (cart_of ["B"; "A"]) (cart_of ["C"; "C"; "B"]).
Proof.
  apply (similarity_depends_on_product_sets
           (cart_of ["A"; "B"; "A"]) (cart_of ["B"; "A"])
           (cart_of ["B"; "C"]) (cart_of ["C"; "C"; "B"])).
  - intros x. unfold ids, cart_of. simpl. set_solver.
  - intros x. unfold ids, cart_of. simpl. set_solver.
Defined.
End similarity_more.

(** ** The report of the predecessor analysis *)

Section report.
Import Standalone StandaloneCart.
Implicit Types (carts : list ShoppingCart).

Lemma print_sequence_analysis_nil names :
  print_sequence_analysis [] names = ["No sequence data available."].
Proof. done. Qed.

(** The report of a non-empty map: the header, one block per product in
    descending order of occurrences, the closing rule. *)
Lemma print_sequence_analysis_lines stats names :
  stats ≠ [] →
  ∃ name_of,
    print_sequence_analysis stats names
    = report_header
      ++ (sorted_reverse (λ x, occurrences x.2) stats
            ≫= report_block name_of)
      ++ [str_repeat "=" 70].
Proof.
  intros Hne. unfold print_sequence_analysis.
  rewrite bool_decide_eq_false_2 by done. cbv zeta.
  pose (name_of := λ id : string,
          match names with
          | Some names =>
              if bool_decide (names ≠ []) then default id (dict_get id names)
              else id
          | None => id
          end).
  exists name_of.
  match goal with
  | |- context [foldl ?f _ _] =>
      assert (∀ l acc, foldl f acc l = acc ++ (l ≫= report_block name_of))
        as Hloop
  end.
  { induction l as [|[k st] l IH]; intros acc.
    - by rewrite app_nil_r.
    - cbn [foldl]. rewrite IH. csimpl. unfold report_block, print.
      cbn [fst snd]. fold name_of.
      destruct (most_common_predecessor st); by rewrite <-!app_assoc. }
  rewrite Hloop. unfold print, report_header. cbn [app]. reflexivity.
Qed.

Lemma report_block_with_predecessor name_of entry :
  is_Some (most_common_predecessor entry.2) →
  length (report_block name_of entry) = 4 ∧
  often_added_first_line ∉ report_block name_of entry.
Proof.
  intros [pred Hpred]. unfold report_block. rewrite Hpred.
  split; [done|]. rewrite !not_elem_of_cons. split_and!.
  - intros H. vm_compute in H. discriminate H.
  - intros H. vm_compute in H. discriminate H.
  - intros H. vm_compute in H. discriminate H.
  - intros H. vm_compute in H. discriminate H.
  - apply not_elem_of_nil.
Qed.

Lemma report_blocks_with_predecessor name_of
    (l : list (string * ProductSequenceStats)) :
  Forall (λ entry, is_Some (most_common_predecessor entry.2)) l →
  length (l ≫= report_block name_of) = 4 * length l ∧
  often_added_first_line ∉ l ≫= report_block name_of.
Proof.
  induction 1 as [|entry l He Hl [IHlen IHnot]].
  - split; [done|apply not_elem_of_nil].
  - destruct (report_block_with_predecessor name_of entry He) as [H4 Hnot].
    csimpl. rewrite length_app, H4, IHlen, not_elem_of_app.
    split; [lia|done].
Qed.

Lemma analysis_entries_have_predecessor carts r :
  analyze_product_sequences carts = Ok r →
  Forall (λ entry, is_Some (most_common_predecessor entry.2)) r.
Proof.
  rewrite standalone_analyze_eq. intros [= <-].
  rewrite Forall_fmap, Forall_forall. intros [k c] Hin. simpl.
  apply elem_of_accumulate in Hin as [Hne ->].
  rewrite foldl_incr_Counter.
  destruct (top_entry_Some _ Hne) as ([q n] & Hmc & _).
  rewrite Hmc. simpl. by eexists.
Qed.

Lemma analysis_nil_iff carts r :
  analyze_product_sequences carts = Ok r →
  r = [] ↔ Forall (λ c, length (_items c) ≤ 1) carts.
Proof.
  intros Hr.
  destruct (standalone_analyze_spec carts) as (r' & Hr' & _ & Hget).
  rewrite Hr in Hr'. injection Hr' as <-.
  rewrite dict_nil_iff, Forall_forall. split.
  - intros Hnone c Hc.
    destruct (decide (length (_items c) ≤ 1)) as [|Hlen]; [done|].
    destruct (lookup_lt_is_Some_2 (get_product_sequence c) 1) as [p Hp].
    { unfold get_product_sequence. rewrite length_fmap. lia. }
    assert (p ∈ (predecessor_stream carts).*1) as Hin.
    { apply elem_of_predecessor_stream. eauto. }
    specialize (Hnone p). rewrite Hget in Hnone.
    destruct (predecessors_of p carts) eqn:Hp'; [|done].
    by apply values_at_nil_iff in Hp'.
  - intros Hshort p. rewrite Hget.
    destruct (predecessors_of p carts) as [|q l] eqn:Hp; [done|].
    assert (p ∈ (predecessor_stream carts).*1) as Hin.
    { destruct (decide (p ∈ (predecessor_stream carts).*1)) as [|Hno];
        [done|]. apply values_at_nil_iff in Hno.
      unfold predecessors_of in Hp. congruence. }
    apply elem_of_predecessor_stream in Hin as (c & i & Hc & Hi).
    apply lookup_lt_Some in Hi. specialize (Hshort c Hc).
    unfold get_product_sequence in Hi. rewrite length_fmap in Hi. lia.
Qed.

(** X19: the report printed for the result of the predecessor analysis
    is the single line "No sequence data available." exactly when every
    cart has at most one item; otherwise it has the five header lines, a
    block of four lines per product and the closing rule, and it never
    prints the "Often added first" line, since every entry of the
    analysis names a predecessor. *)
Theorem report_of_analysis carts names :
  ∃ r,
    analyze_product_sequences carts = Ok r ∧
    (print_sequence_analysis r names = ["No sequence data available."] ↔
       Forall (λ c, length (_items c) ≤ 1) carts) ∧
    often_added_first_line ∉ print_sequence_analysis r names ∧
    (r = [] ∨ length (print_sequence_analysis r names) = 6 + 4 * length r).
Proof.
  destruct (analyze_product_sequences carts) as [r|e] eqn:Hr;
    [|by rewrite standalone_analyze_eq in Hr].
  exists r. split; [done|].
  rewrite <-(analysis_nil_iff carts r Hr).
  destruct (decide (r = [])) as [->|Hne].
  { rewrite print_sequence_analysis_nil. split_and!; [done| |by left].
    by_compute. }
  destruct (print_sequence_analysis_lines r names Hne) as (name_of & ->).
  pose proof (analysis_entries_have_predecessor carts r Hr) as Hpred.
  assert (Forall (λ entry, is_Some (most_common_predecessor entry.2))
            (sorted_reverse (λ x, occurrences x.2) r)) as Hpred'.
  { by rewrite sorted_reverse_Permutation. }
  destruct (report_blocks_with_predecessor name_of _ Hpred')
    as [Hlen Hnot].
  rewrite (Permutation_length (sorted_reverse_Permutation _ r)) in Hlen.
  split_and!.
  - split; [|done]. intros Heq. apply (f_equal length) in Heq.
    rewrite !length_app, Hlen in Heq. simpl in Heq. lia.
  - rewrite !not_elem_of_app. split_and!; [by_compute|done|by_compute].
  - right. rewrite !length_app, Hlen. simpl. lia.
Qed.
End report.

(** ** The two implementations on the same carts *)

Section both.
Implicit Types (carts : list Api.Cart) (scarts : list Standalone.ShoppingCart).

Lemma occ_prod_swap (a b : string) (l : list (string * string)) :
  occ (b, a) (prod_swap <$> l) = occ (a, b) l.
Proof.
  induction l as [|[x y] l IH]; [done|].
  rewrite fmap_cons, !occ_cons, IH. simpl.
  repeat case_decide; simplify_eq; done.
Qed.

Lemma predecessor_stream_swap carts scarts :
  Forall2 (λ c sc, ids c = Standalone.get_product_sequence sc) carts scarts →
  predecessor_stream scarts = prod_swap <$> adjacent_stream carts.
Proof.
  unfold predecessor_stream, adjacent_stream.
  induction 1 as [|c sc carts scarts Hc _ IH]; [done|].
  csimpl. by rewrite fmap_app, IH, Hc.
Qed.

(** X20: on the same carts the two implementations are consistent: if
    the API analysis says that [q] most often follows [p], [n] times,
    then the standalone analysis has an entry for [q], and the
    predecessor it names stood before [q] at least [n] times. *)
Theorem follower_entry_bounded_by_predecessor_entry carts scarts :
  Forall2 (λ c sc, ids c = Standalone.get_product_sequence sc) carts scarts →
  ∃ r sr,
    Api.analyze_product_sequences carts = Ok r ∧
    Standalone.analyze_product_sequences scarts = Ok sr ∧
    ∀ p q n, dict_get p r = Some (q, n) →
      ∃ s, dict_get q sr = Some s ∧ n ≤ Standalone.occurrences s.
Proof.
  intros Hsame.
  destruct (analyze_product_sequences_spec carts) as (r & Hr & _ & Hget).
  destruct (standalone_analyze_spec scarts) as (sr & Hsr & _ & Hsget).
  exists r, sr. split; [done|]. split; [done|].
  intros p q n. rewrite Hget, Hsget. intros Htop.
  pose proof (top_entry_Some_inv _ _ Htop) as (Hq & Hn & _). simpl in *.
  assert (occ p (predecessors_of q scarts) = n) as Hocc.
  { unfold predecessors_of.
    rewrite occ_values_at, (predecessor_stream_swap _ _ Hsame).
    rewrite occ_prod_swap, Hn. unfold followers_of.
    by rewrite occ_values_at. }
  assert (0 < n) as Hpos by (rewrite Hn; by apply occ_pos).
  destruct (predecessors_of q scarts) as [|q0 l] eqn:Hp.
  { rewrite occ_nil in Hocc. lia. }
  destruct (top_entry_Some (q0 :: l)) as ([q' m] & _ & Htop' & _ & _ & Hmax);
    [done|]. rewrite Htop'. eexists. split; [done|]. simpl.
  rewrite <-Hocc. apply Hmax.
Qed.

Lemma follower_entry_bounded_by_predecessor_entry_witness :
  ∃ r sr,
    Api.analyze_product_sequences
      (cart_of <$> [["A"; "B"]; ["A"; "B"]; ["C"; "B"]]) = Ok r ∧
    Standalone.analyze_product_sequences
      (shopping_cart_of <$> [["A"; "B"]; ["A"; "B"]; ["C"; "B"]]) = Ok sr.
Proof.
  destruct (follower_entry_bounded_by_predecessor_entry
              (cart_of <$> [["A"; "B"]; ["A"; "B"]; ["C"; "B"]])
              (shopping_cart_of <$> [["A"; "B"]; ["A"; "B"]; ["C"; "B"]]))
    as (r & sr & Hr & Hsr & _).
  { repeat constructor. }
  by exists r, sr.
Defined.
End both.
